(** * tpqbogo: Threaded Pseudo-Quantum Bogosort

    A shallow embedding of [tpqbogo.py] and the properties of its sorting
    pass.  Python integers are [Z].  A [List[int]] object lives in a store
    and is named by its address, because [main] shuffles its array in place
    and hands the very same object to [tpqbogo] and to [MainResult].
    The code of a thread is a sequence of indivisible steps (reading its
    list, acquiring the lock, appending, releasing the lock) and an explicit
    scheduler decides which thread takes the next step, so that every
    statement about a pass is a statement about all the ways in which the
    steps of its threads can be interleaved.  The functions of the command
    line run in a process that keeps what was printed on stdout beside the
    store. *)

From Stdlib Require Import String Ascii DecimalString.
From Stdlib Require Import List ZArith Lia Bool Arith Permutation Sorted.
From Stdlib Require Import Factorial FinFun ListDec.
Import ListNotations.

Set Implicit Arguments.
Open Scope Z_scope.

(** * Definitions *)

(** ** Library functions the program imports *)

Section Itertools.
Variable A : Type.

(** Every way of taking one element out of a list, leftmost position
    first, paired with what stays behind (order kept). *)
Fixpoint selects (l : list A) : list (A * list A) :=
  match l with
  | [] => []
  | x :: xs => (x, xs) :: map (fun yr => (fst yr, x :: snd yr)) (selects xs)
  end.

(** [itertools.permutations(pool)] for full-length tuples: positions are
    chosen left to right, so tuples come out in lexicographic order of the
    positions of the pool.  [n] counts the positions still to fill. *)
Fixpoint permutations_of_length (n : nat) (pool : list A) : list (list A) :=
  match n with
  | O => [[]]
  | S k =>
      flat_map
        (fun xr => map (cons (fst xr)) (permutations_of_length k (snd xr)))
        (selects pool)
  end.

Definition permutations (pool : list A) : list (list A) :=
  permutations_of_length (length pool) pool.
End Itertools.

(** [math.factorial] on a length. *)
Fixpoint factorial (n : nat) : Z :=
  match n with
  | O => 1
  | S k => Z.of_nat (S k) * factorial k
  end.

(** [list(range(lo, hi))]. *)
Definition range (lo hi : Z) : list Z :=
  map (fun i => lo + Z.of_nat i) (seq 0 (Z.to_nat (hi - lo))).

(** [enumerate(xs)] counting from [start]. *)
Fixpoint enumerate_from (A : Type) (start : nat) (xs : list A) : list (Z * A) :=
  match xs with
  | [] => []
  | x :: rest => (Z.of_nat start, x) :: enumerate_from (S start) rest
  end.

Definition enumerate (A : Type) (xs : list A) : list (Z * A) :=
  enumerate_from 0 xs.

(** ** The sortedness test of [check_sort]:
    [all(left <= right for left, right in zip(arr, arr[1:]))] *)
Definition is_sorted (arr : list Z) : bool :=
  forallb (fun lr => fst lr <=? snd lr) (combine arr (skipn 1 arr)).

(** ** Data model *)

(** Address of a [List[int]] object, and of a [Locked] object. *)
Definition loc := nat.

Definition lref := nat.

Record ThreadResult := mkThreadResult {
  thread_id : Z;
  sorted_array : loc
}.

Record Result := mkResult {
  num_of_permutations : Z;
  successful_thread : ThreadResult
}.

Record MainResult := mkMainResult {
  original_array : loc;
  elapsed_time_nanoseconds : Z;
  result : Result
}.

(** [Thread(target=check_sort, args=(idx, arr, results))]. *)
Record Thread := mkThread {
  t_idx : Z;
  t_arr : loc;
  t_results : lref
}.

(** An object of the helper class [Locked]: its lock, held or not, and the
    item it guards (here always the list of results). *)
Record Locked := mkLocked {
  lock : bool;
  item : list ThreadResult
}.

(** The state of the Python process that the program can touch: its list
    objects, its [Locked] objects, the threads started so far and those
    whose target has returned, both in the order it happened, and what was
    printed on stderr. *)
Record world := mkWorld {
  lists : list (list Z);
  lockeds : list Locked;
  started : list Thread;
  finished : list Thread;
  stderr : list string
}.

Definition set_lists (v : list (list Z)) (w : world) : world :=
  mkWorld v (lockeds w) (started w) (finished w) (stderr w).

Definition set_lockeds (v : list Locked) (w : world) : world :=
  mkWorld (lists w) v (started w) (finished w) (stderr w).

Definition set_started (v : list Thread) (w : world) : world :=
  mkWorld (lists w) (lockeds w) v (finished w) (stderr w).

Definition set_finished (v : list Thread) (w : world) : world :=
  mkWorld (lists w) (lockeds w) (started w) v (stderr w).

Definition set_stderr (v : list string) (w : world) : world :=
  mkWorld (lists w) (lockeds w) (started w) (finished w) v.

Definition empty_world : world := mkWorld [] [] [] [] [].

(** ** Effects: a state monad with exceptions, process exit and blocking *)

Inductive exn := IndexError.

(** How a computation ends: it returns, it raises an exception, it ends the
    process through [exit] (the [SystemExit] that nothing in the program
    catches), or it waits for ever on a lock. *)
Inductive outcome (A : Type) :=
| Returned (a : A)
| Raised (e : exn)
| Exited (code : Z)
| Blocked.

Arguments Returned {A} a.
Arguments Raised {A} e.
Arguments Exited {A} code.
Arguments Blocked {A}.

Definition M (A : Type) := world -> outcome A * world.

Definition ret (A : Type) (a : A) : M A := fun w => (Returned a, w).

Definition bind (A B : Type) (c : M A) (k : A -> M B) : M B :=
  fun w =>
    match c w with
    | (Returned a, w') => k a w'
    | (Raised e, w') => (Raised e, w')
    | (Exited n, w') => (Exited n, w')
    | (Blocked, w') => (Blocked, w')
    end.

Notation "x <- c ;; k" := (bind c (fun x => k))
  (at level 61, c at next level, right associativity).
Notation "c ;;; k" := (bind c (fun _ => k))
  (at level 61, right associativity).

Definition raise {A : Type} (e : exn) : M A := fun w => (Raised e, w).

(** [exit(code)]: the interpreter leaves with this status. *)
Definition exit {A : Type} (code : Z) : M A := fun w => (Exited code, w).

(** [print(msg, file=stderr)]. *)
Definition print_stderr (msg : string) : M unit :=
  fun w => (Returned tt, set_stderr (stderr w ++ [msg]) w).

(** [list(v)]: a fresh list object. *)
Definition new_list (v : list Z) : M loc :=
  fun w => (Returned (length (lists w)), set_lists (lists w ++ [v]) w).

Definition read_list (a : loc) : M (list Z) :=
  fun w => (Returned (nth a (lists w) []), w).

(** Change, in place, the list at position [i] of a store. *)
Fixpoint upd (A : Type) (i : nat) (f : A -> A) (l : list A) : list A :=
  match l, i with
  | [], _ => []
  | x :: r, O => f x :: r
  | x :: r, S k => x :: upd k f r
  end.

Definition write_list (a : loc) (v : list Z) : M unit :=
  fun w => (Returned tt, set_lists (upd a (fun _ => v) (lists w)) w).

(** [Locked.__init__]: a new lock, not held, paired with the item. *)
Definition Locked_init (it : list ThreadResult) : M lref :=
  fun w => (Returned (length (lockeds w)),
            set_lockeds (lockeds w ++ [mkLocked false it]) w).

(** [Locked.__enter__]: acquire the lock and hand out the item.  A caller
    that finds the lock held cannot go on: [Blocked]. *)
Definition Locked_enter (l : lref) : M lref :=
  fun w =>
    if lock (nth l (lockeds w) (mkLocked false [])) then (Blocked, w)
    else (Returned l,
          set_lockeds (upd l (fun o => mkLocked true (item o)) (lockeds w)) w).

(** [Locked.__exit__]: release the lock. *)
Definition Locked_exit (l : lref) : M unit :=
  fun w => (Returned tt,
            set_lockeds (upd l (fun o => mkLocked false (item o)) (lockeds w)) w).

(** [r.append(x)] on the guarded list. *)
Definition append (r : lref) (x : ThreadResult) : M unit :=
  fun w => (Returned tt,
            set_lockeds (upd r (fun o => mkLocked (lock o) (item o ++ [x]))
                             (lockeds w)) w).

(** Reading the guarded list. *)
Definition items (r : lref) : M (list ThreadResult) :=
  fun w => (Returned (item (nth r (lockeds w) (mkLocked false []))), w).

(** [t.start()]. *)
Definition thread_start (t : Thread) : M unit :=
  fun w => (Returned tt, set_started (started w ++ [t]) w).

(** The target of thread [t] has returned. *)
Definition thread_return (t : Thread) : M unit :=
  fun w => (Returned tt, set_finished (finished w ++ [t]) w).

(** [[list(p) for p in ps]]. *)
Fixpoint new_lists (ps : list (list Z)) : M (list loc) :=
  match ps with
  | [] => ret []
  | p :: rest =>
      a <- new_list p ;;
      more <- new_lists rest ;;
      ret (a :: more)
  end.

(** ** Code that other threads can interleave with *)

(** What is left of a piece of code that runs step by step: nothing but to
    deliver its outcome, or one more indivisible step, which changes the
    world and leaves the rest of the code.  A step that cannot be taken
    now, acquiring a lock that is held, gives [None]: the code waits. *)
#[warnings="-register-all"]
Inductive Thr (A : Type) : Type :=
| Fin (o : outcome A)
| Atom (step : world -> option (Thr A * world)).

Arguments Fin {A} o.
Arguments Atom {A} step.

(** One primitive operation as one step. *)
Definition lift (A : Type) (c : M A) : Thr A :=
  Atom (fun w =>
          match c w with
          | (Blocked, _) => None
          | (o, w') => Some (Fin o, w')
          end).

(** Sequencing: the steps of [t], then those of [k] on what [t] returned;
    any other outcome of [t] is the outcome of the whole. *)
Fixpoint tbind (A B : Type) (t : Thr A) (k : A -> Thr B) : Thr B :=
  match t with
  | Fin (Returned a) => k a
  | Fin (Raised e) => Fin (Raised e)
  | Fin (Exited n) => Fin (Exited n)
  | Fin Blocked => Fin Blocked
  | Atom step =>
      Atom (fun w =>
              match step w with
              | None => None
              | Some (t', w') => Some (tbind t' k, w')
              end)
  end.

Notation "x <~ c ;; k" := (tbind c (fun x => k))
  (at level 61, c at next level, right associativity).

(** [try: t finally: cleanup]. *)
Fixpoint finally (A : Type) (t : Thr A) (cleanup : Thr unit) : Thr A :=
  match t with
  | Fin o => tbind cleanup (fun _ => Fin o)
  | Atom step =>
      Atom (fun w =>
              match step w with
              | None => None
              | Some (t', w') => Some (finally t' cleanup, w')
              end)
  end.

(** [with l as r: body].  [__exit__] runs on every way out of the body and
    returns [None], so an exception raised inside goes on to the caller. *)
Definition with_ (A : Type) (l : lref) (body : lref -> Thr A) : Thr A :=
  r <~ lift (Locked_enter l) ;;
  finally (body r) (lift (Locked_exit l)).

(** Code run with no other thread about: a step that has to wait waits for
    ever. *)
Fixpoint run (A : Type) (t : Thr A) : M A :=
  match t with
  | Fin o => fun w => (o, w)
  | Atom step =>
      fun w =>
        match step w with
        | None => (Blocked, w)
        | Some (t', w') => run t' w'
        end
  end.

(** ** The program *)

(** The inner function of [tpqbogo].  The [dbg] calls, here and in
    [tpqbogo], are left out: the module starts with [use_debug = False],
    under which they do nothing. *)
Definition check_sort (idx : Z) (arr : loc) (results : lref) : Thr unit :=
  a <~ lift (read_list arr) ;;
  if negb (is_sorted a) then Fin (Returned tt)
  else with_ results (fun r => lift (append r (mkThreadResult idx arr))).

(** A list without its element at position [i]. *)
Definition remove_at (A : Type) (i : nat) (l : list A) : list A :=
  firstn i l ++ skipn (S i) l.

(** A thread that has taken a step: at its end it leaves the live threads,
    otherwise what is left of its code is kept. *)
Definition settle (t : Thread) (p : Thr unit) (i : nat)
           (live : list (Thread * Thr unit)) : M (list (Thread * Thr unit)) :=
  match p with
  | Fin _ => thread_return t ;;; ret (remove_at i live)
  | Atom _ => ret (upd i (fun _ => (t, p)) live)
  end.

(** The live thread at position [i] takes one step, if it can. *)
Definition step_at (i : nat) (live : list (Thread * Thr unit))
  : M (list (Thread * Thr unit)) :=
  match nth_error live i with
  | None => ret live
  | Some (t, Fin o) => settle t (Fin o) i live
  | Some (t, Atom step) =>
      fun w =>
        match step w with
        | None => (Returned live, w)
        | Some (p, w') => settle t p i live w'
        end
  end.

(** The interpreter's thread switching.  [live] holds the threads that were
    started and are not at their end, each with what is left of its code;
    each pick [c] gives one step to the thread at position
    [c mod length live]. *)
Fixpoint run_some (picks : list nat) (live : list (Thread * Thr unit))
  : M (list (Thread * Thr unit)) :=
  match picks with
  | [] => ret live
  | c :: more =>
      live' <- step_at (c mod length live) live ;;
      run_some more live'
  end.

(** A piece of code goes on until it ends or has to wait. *)
Fixpoint run_on (p : Thr unit) (w : world) : Thr unit * world :=
  match p with
  | Fin _ => (p, w)
  | Atom step =>
      match step w with
      | None => (p, w)
      | Some (p', w') => run_on p' w'
      end
  end.

(** One round of a fair scheduler: each live thread in turn goes on until
    it ends or has to wait. *)
Fixpoint sweep (live : list (Thread * Thr unit)) : M (list (Thread * Thr unit)) :=
  match live with
  | [] => ret []
  | (t, p) :: rest =>
      fun w =>
        match run_on p w with
        | (Fin _, w1) => (thread_return t ;;; sweep rest) w1
        | (p', w1) => (rest' <- sweep rest ;; ret ((t, p') :: rest')) w1
        end
  end.

(** [n] rounds. *)
Fixpoint sweeps (n : nat) (live : list (Thread * Thr unit))
  : M (list (Thread * Thr unit)) :=
  match n with
  | O => ret live
  | S k => live' <- sweep live ;; sweeps k live'
  end.

(** What the scheduler decides: which steps are taken right after the
    thread with a given id was started, and which ones first while the
    orchestrator waits in [join]. *)
Record scheduler := mkScheduler {
  after_start : Z -> list nat;
  at_join : list nat
}.

(** The statements inside the closing [with results as r:] block of
    [tpqbogo]: [first_to_survive = r[0]], which raises [IndexError] on an
    empty list, and the [Result] built from it. *)
Definition first_result (permutation_count : Z) (r : list ThreadResult) : M Result :=
  match r with
  | [] => raise IndexError
  | first_to_survive :: _ => ret (mkResult permutation_count first_to_survive)
  end.

Section Pass.
Variable sch : scheduler.

(** [for idx, perm in enumerate(arr_permutations): ...] *)
Fixpoint spawn_all (work : list (Z * loc)) (results : lref)
         (live : list (Thread * Thr unit)) : M (list (Thread * Thr unit)) :=
  match work with
  | [] => ret live
  | (idx, perm) :: rest =>
      p <- read_list perm ;;
      a <- new_list p ;;
      let t := mkThread idx a results in
      thread_start t ;;;
      live' <- run_some (after_start sch idx)
                        (live ++ [(t, check_sort idx a results)]) ;;
      spawn_all rest results live'
  end.

(** [for t in threads: t.join()]: the orchestrator waits while the
    scheduler goes on, first as it likes and then in fair rounds, one more
    than there are live threads.  With a thread still not at its end the
    orchestrator would wait for ever. *)
Definition join_all (live : list (Thread * Thr unit)) : M unit :=
  live1 <- run_some (at_join sch) live ;;
  live2 <- sweeps (S (length live1)) live1 ;;
  match live2 with
  | [] => ret tt
  | _ :: _ => fun w => (Blocked, w)
  end.

Definition tpqbogo (arr : loc) : M Result :=
  a <- read_list arr ;;
  arr_permutations <- new_lists (permutations a) ;;
  let permutation_count := factorial (length a) in
  results <- Locked_init [] ;;
  live <- spawn_all (enumerate arr_permutations) results [] ;;
  join_all live ;;;
  run (with_ results (fun r =>
         rs <~ lift (items r) ;;
         lift (first_result permutation_count rs))).

(** [main].  [shuffled] is what [random.shuffle] makes of a list, and the
    two timer values are the readings of [perf_counter_ns]. *)
Variable shuffled : list Z -> list Z.
Variables timer_start timer_end : Z.

Definition shuffle (arr : loc) : M unit :=
  a <- read_list arr ;;
  write_list arr (shuffled a).

Definition main (array_size : Z) : M MainResult :=
  arr <- new_list (range 1 (array_size + 1)) ;;
  shuffle arr ;;;
  if array_size <? 1 then
    print_stderr "tpqbogo: size must be a positive non-zero integer." ;;;
    exit 1
  else
    result <- tpqbogo arr ;;
    let time_elapsed := timer_end - timer_start in
    ret (mkMainResult arr time_elapsed result).
End Pass.

(** ** Vocabulary of the statements *)

(** The values of the list object at an address, and the statement that an
    address names a list object with given values. *)
Definition deref (w : world) (l : loc) : list Z := nth l (lists w) [].

Definition holds (w : world) (l : loc) (a : list Z) : Prop :=
  nth_error (lists w) l = Some a.

Definition size_message : string :=
  "tpqbogo: size must be a positive non-zero integer.".

(** The world once [main] has built and shuffled its array. *)
Definition after_shuffle (shuffled : list Z -> list Z) (array_size : Z)
           (w : world) : world :=
  set_lists (lists w ++ [shuffled (range 1 (array_size + 1))]) w.

(** ** Vocabulary of the proofs *)

(** What a thread appends to the results when its list, read in the store
    [st], is sorted. *)
Definition entry (t : Thread) : ThreadResult :=
  mkThreadResult (t_idx t) (t_arr t).

Definition survivor (st : list (list Z)) (t : Thread) : list ThreadResult :=
  if is_sorted (nth (t_arr t) st []) then [entry t] else [].

(** What [first_result] yields, as a value. *)
Definition first_outcome (permutation_count : Z) (r : list ThreadResult)
  : outcome Result :=
  match r with
  | [] => Raised IndexError
  | first_to_survive :: _ => Returned (mkResult permutation_count first_to_survive)
  end.

(** The next step of a piece of code. *)
Definition thr_step (p : Thr unit) (w : world) : option (Thr unit * world) :=
  match p with
  | Fin _ => None
  | Atom step => step w
  end.

(** The code of a [check_sort] thread by how far it has come: at its
    start, before [__enter__], before [append], before [__exit__]. *)
Definition prog (t : Thread) (k : nat) : Thr unit :=
  match k with
  | O => check_sort (t_idx t) (t_arr t) (t_results t)
  | S O => with_ (t_results t) (fun r => lift (append r (entry t)))
  | S (S O) => finally (lift (append (t_results t) (entry t)))
                 (lift (Locked_exit (t_results t)))
  | _ => finally (Fin (Returned tt)) (lift (Locked_exit (t_results t)))
  end.

(** A live thread, given by how far it has come, with its code. *)
Definition conc (tk : Thread * nat) : Thread * Thr unit :=
  (fst tk, prog (fst tk) (snd tk)).

(** A thread between [__enter__] and [__exit__] holds the lock; one that
    has appended and not yet left has its entry in the results already. *)
Definition holder (tk : Thread * nat) : bool := (2 <=? snd tk)%nat.

Definition holding (alive : list (Thread * nat)) : bool := existsb holder alive.

Definition appended (st : list (list Z)) (tk : Thread * nat) : list ThreadResult :=
  if (3 <=? snd tk)%nat then survivor st (fst tk) else [].

(** The world in the middle of a pass: [ls] the lists allocated so far,
    [sa] the threads started, [alive] the live threads with how far each
    has come, [F] the threads of the pass that are at their end, in the
    order in which they got there.  The results object of the pass comes
    right after the [Locked] objects [lk] that were there before. *)
Definition shape (lk : list Locked) (st : list (list Z)) (fi0 : list Thread)
           (se0 : list string) (ls : list (list Z)) (sa : list Thread)
           (alive : list (Thread * nat)) (F : list Thread) : world :=
  mkWorld ls
          (lk ++ [mkLocked (holding alive)
                           (flat_map (survivor st) F ++ flat_map (appended st) alive)])
          sa (fi0 ++ F) se0.

(** A live thread of the pass: it reports to the results object [r], its
    list is allocated, and it is past the test only if its list is
    sorted. *)
Definition ok (r : lref) (st : list (list Z)) (bound : nat)
           (tk : Thread * nat) : Prop :=
  t_results (fst tk) = r /\
  (t_arr (fst tk) < bound)%nat /\
  ((1 <= snd tk)%nat -> is_sorted (nth (t_arr (fst tk)) st []) = true).

(** The live threads of a pass: at most one of them holds the lock, and the
    lists allocated so far are the first of those the pass will have
    allocated in the end, [st]. *)
Definition wf (r : lref) (st ls : list (list Z))
           (alive : list (Thread * nat)) : Prop :=
  Forall (ok r st (length ls)) alive /\
  (length (filter holder alive) <= 1)%nat /\
  exists ext, st = ls ++ ext.

(** What the next step of a thread that has come as far as [k] does, when
    [busy] tells whether another thread holds the lock: [None] if it has to
    wait, else how far it has come afterwards, or [None] when it is at its
    end. *)
Definition next (st : list (list Z)) (busy : bool) (t : Thread) (k : nat)
  : option (option nat) :=
  match k with
  | O => Some (if is_sorted (nth (t_arr t) st []) then Some 1%nat else None)
  | S O => if busy then None else Some (Some 2%nat)
  | S (S O) => Some (Some 3%nat)
  | _ => Some None
  end.

(** The list each thread of the spawning loop gets is a copy of what its
    permutation object holds; the threads are numbered as the work list
    says and their private lists are allocated one after the other. *)
Definition copies (st : list (list Z)) (work : list (Z * loc)) : list (list Z) :=
  map (fun ip => nth (snd ip) st []) work.

Fixpoint threads_of (base : nat) (work : list (Z * loc)) (r : lref) : list Thread :=
  match work with
  | [] => []
  | (idx, _) :: rest => mkThread idx base r :: threads_of (S base) rest r
  end.

(** The threads of one pass over an array with [n] permutations, when the
    store held [base] lists and [r] is the pass's results object. *)
Definition pass_threads (base n : nat) (r : lref) : list Thread :=
  map (fun k => mkThread (Z.of_nat k) (base + n + k)%nat r) (seq 0 n).

(** Insertion sort, used only to exhibit a non-decreasing arrangement. *)
Fixpoint insert (x : Z) (l : list Z) : list Z :=
  match l with
  | [] => [x]
  | y :: r => if x <=? y then x :: l else y :: insert x r
  end.

Definition insertion_sort (l : list Z) : list Z := fold_right insert [] l.

(** ** Schedulers and worlds to run the program on *)

(** No thread takes a step before the orchestrator waits in [join]; then
    the threads run one after the other, in starting order. *)
Definition fifo : scheduler := mkScheduler (fun _ => []) [].

(** No thread takes a step before the barrier; then the last of six
    threads takes four steps, the last of those left another four, and so
    on. *)
Definition lifo : scheduler :=
  mkScheduler (fun _ => []) [5; 5; 5; 5; 4; 4; 4; 4; 3; 2; 1; 0]%nat.

(** Threads 1 and 0 take a step each, in this order, as soon as thread 1
    is started; at the barrier the third of the live threads goes first. *)
Definition eager : scheduler :=
  mkScheduler (fun idx => if idx =? 1 then [1; 0]%nat else []) [2%nat].

(** Once six threads are started, the fifth reads its list and acquires
    the lock, the sixth reads its list and tries to acquire the lock, the
    fifth appends, the sixth tries again, the fifth releases the lock. *)
Definition contended : scheduler :=
  mkScheduler (fun idx => if idx =? 5 then [4; 4; 5; 5; 4; 5; 4]%nat else []) [].

(** A process that holds an unrelated list at address 0 and [a] at
    address 1. *)
Definition world_with (a : list Z) : world := set_lists [[9; 9]; a] empty_world.

(** A process whose store holds the list [a] at address 0 and one
    [Locked] object, at position 0, with the given lock state and item. *)
Definition lock_world (a : list Z) (held : bool) (res : list ThreadResult)
  : world :=
  mkWorld [a] [mkLocked held res] [] [] [].

(** ** The command line layer

    The functions that call [main] and print.  What goes to stdout is kept
    beside the world, one string for each call of [print]. *)

Record process := mkProcess {
  mem : world;
  stdout : list string
}.

Definition P (A : Type) := process -> outcome A * process.

Definition pret (A : Type) (a : A) : P A := fun p => (Returned a, p).

Definition pbind (A B : Type) (c : P A) (k : A -> P B) : P B :=
  fun p =>
    match c p with
    | (Returned a, p') => k a p'
    | (Raised e, p') => (Raised e, p')
    | (Exited n, p') => (Exited n, p')
    | (Blocked, p') => (Blocked, p')
    end.

Notation "x <<- c ;; k" := (pbind c (fun x => k))
  (at level 61, c at next level, right associativity).
Notation "c >>> k" := (pbind c (fun _ => k))
  (at level 61, right associativity).

(** Code of the core, run inside the process. *)
Definition inM (A : Type) (c : M A) : P A :=
  fun p =>
    match c (mem p) with
    | (o, w') => (o, mkProcess w' (stdout p))
    end.

(** [print(text)]. *)
Definition print (text : string) : P unit :=
  fun p => (Returned tt, mkProcess (mem p) (stdout p ++ [text])).

(** [str(z)] for an integer, which is also how an f-string renders it. *)
Definition str (z : Z) : string := NilZero.string_of_int (Z.to_int z).

(** How an f-string renders a list of integers: [[1, 2, 3]]. *)
Definition repr_list (a : list Z) : string :=
  ("[" ++ String.concat ", " (map str a) ++ "]")%string.

(** The line feed inside a string literal. *)
Definition newline : string := String (ascii_of_nat 10) EmptyString.

(** The global flag as the module sets it. *)
Definition use_debug : bool := false.

(** [dbg(message)]. *)
Definition dbg (message : string) : P unit :=
  if use_debug then inM (print_stderr message) else pret tt.

(** What the surroundings contribute to one call of [main]: how the threads
    are scheduled, what [random.shuffle] does and the two clock readings. *)
Record call := mkCall {
  call_sch : scheduler;
  call_shuffled : list Z -> list Z;
  call_start : Z;
  call_end : Z
}.

Definition main_in (e : call) (array_size : Z) : P MainResult :=
  inM (main (call_sch e) (call_shuffled e) (call_start e) (call_end e) array_size).

Definition main_nanoseconds (e : call) (array_size : Z) : P unit :=
  res <<- main_in e array_size ;;
  let time_elapsed := elapsed_time_nanoseconds res in
  print (str time_elapsed).

(** The line [main_speedtest] prints for one size. *)
Definition speedtest_row (i permutations elapsed : Z) : string :=
  (str i ++ "," ++ str permutations ++ "," ++ str elapsed)%string.

(** [for i in range(1, array_size + 1): ...], call [i] of [main] getting
    its surroundings from [env i]. *)
Fixpoint speedtest_loop (env : Z -> call) (sizes : list Z) : P unit :=
  match sizes with
  | [] => pret tt
  | i :: rest =>
      dbg ("[speedtest] Iteration " ++ str i ++ ".")%string >>>
      res <<- main_in (env i) i ;;
      print (speedtest_row i (num_of_permutations (result res))
                           (elapsed_time_nanoseconds res)) >>>
      speedtest_loop env rest
  end.

Definition speedtest_header : string :=
  "array_size,permutations,speed_nanoseconds".

Definition main_speedtest (env : Z -> call) (array_size : Z) : P unit :=
  print speedtest_header >>>
  speedtest_loop env (range 1 (array_size + 1)).


Definition main_display (e : call) (array_size : Z) : P unit :=
  res <<- main_in e array_size ;;
  let original_array := original_array res in
  let time_elapsed := elapsed_time_nanoseconds res in
  let permutations_count := num_of_permutations (result res) in
  let thread_idx := thread_id (successful_thread (result res)) in
  let sorted_arr := sorted_array (successful_thread (result res)) in
  dbg "" >>>
  print "*** Threaded Pseudo-Quantum Bogosort ***" >>>
  sorted_now <<- inM (read_list sorted_arr) ;;
  print ("Your sorted array is:" ++ newline ++ "  " ++ repr_list sorted_now)%string >>>
  print "Statistics:" >>>
  original_now <<- inM (read_list original_array) ;;
  print ("  Original array:            " ++ repr_list original_now)%string >>>
  print ("  Number of permutations:    " ++ str permutations_count)%string >>>
  print ("  Successful thread:         t" ++ str thread_idx)%string >>>
  print ("  Time elapsed:              " ++ str time_elapsed ++ " ns")%string.

(** What [get_args] hands to the script. *)
Record Namespace := mkNamespace {
  size : Z;
  debug : bool;
  nanoseconds : bool;
  speedtest : bool
}.

(** The block under [if __name__ == "__main__":], once [get_args] has
    returned [args].  The assignment [use_debug = args.debug] is not
    there: runs with [-D] are outside what is modelled, and the statements
    about the script ask for [debug args = false]. *)
Definition script (env : Z -> call) (args : Namespace) : P unit :=
  if speedtest args then
    main_speedtest env (size args) >>> inM (exit 0)
  else if nanoseconds args then
    main_nanoseconds (env (size args)) (size args) >>> inM (exit 0)
  else
    main_display (env (size args)) (size args).

(** The status the interpreter ends with: 0 when the script runs off its
    end, the argument of [exit], 1 after an uncaught exception; none when
    it never ends. *)
Definition exit_status (o : outcome unit) : option Z :=
  match o with
  | Returned _ => Some 0
  | Exited n => Some n
  | Raised _ => Some 1
  | Blocked => None
  end.

(** The command line [tpqbogo 0]. *)
Definition display_of_nothing : Namespace := mkNamespace 0 false false false.

(** A process with an empty store and nothing printed, and surroundings
    that reverse where the library shuffles. *)
Definition fresh_process : process := mkProcess empty_world [].

Definition reversing (s : scheduler) (i : Z) : call :=
  mkCall s (@rev Z) (100 * i) (100 * i + 7).

(** * Theorems *)

(** ** The program on concrete inputs *)

Example permutations_312 :
  permutations [3; 1; 2] =
  [[3; 1; 2]; [3; 2; 1]; [1; 3; 2]; [1; 2; 3]; [2; 3; 1]; [2; 1; 3]].
Proof. reflexivity. Qed.

Example permutations_dup : permutations [7; 7] = [[7; 7]; [7; 7]].
Proof. reflexivity. Qed.

Example is_sorted_ex :
  is_sorted [1; 2; 2; 5] = true /\ is_sorted [1; 3; 2] = false /\
  is_sorted [] = true /\ is_sorted [4] = true.
Proof. repeat split. Qed.

Example tpqbogo_312 :
  fst (tpqbogo fifo 1%nat (world_with [3; 1; 2])) =
  Returned (mkResult 6 (mkThreadResult 3 11%nat)) /\
  deref (snd (tpqbogo fifo 1%nat (world_with [3; 1; 2]))) 11%nat = [1; 2; 3].
Proof. split; reflexivity. Qed.

(** With equal elements several threads survive and the scheduler decides
    which one is recorded first. *)
Example tpqbogo_221 :
  fst (tpqbogo fifo 1%nat (world_with [2; 2; 1])) =
  Returned (mkResult 6 (mkThreadResult 4 12%nat)) /\
  fst (tpqbogo lifo 1%nat (world_with [2; 2; 1])) =
  Returned (mkResult 6 (mkThreadResult 5 13%nat)) /\
  lockeds (snd (tpqbogo lifo 1%nat (world_with [2; 2; 1]))) =
  [mkLocked false [mkThreadResult 5 13%nat; mkThreadResult 4 12%nat]].
Proof. repeat split; reflexivity. Qed.

Example eager_order :
  map t_idx (finished (snd (tpqbogo eager 1%nat (world_with [3; 1; 2])))) =
  [1; 0; 4; 2; 3; 5].
Proof. reflexivity. Qed.

(** A thread that finds the lock held does not move, takes its turn when
    the lock is free again, and no entry is lost. *)
Example contended_run :
  thr_step (prog (mkThread 5 13%nat 0%nat) 1)
           (set_lockeds [mkLocked true []] (world_with [2; 2; 1])) = None /\
  lockeds (snd (tpqbogo contended 1%nat (world_with [2; 2; 1]))) =
  [mkLocked false [mkThreadResult 4 12%nat; mkThreadResult 5 13%nat]] /\
  map t_idx (finished (snd (tpqbogo contended 1%nat (world_with [2; 2; 1])))) =
  [4; 0; 1; 2; 3; 5].
Proof. repeat split; reflexivity. Qed.

Example main_3 :
  fst (main fifo (@rev Z) 10 25 3 empty_world) =
  Returned (mkMainResult 0%nat 15 (mkResult 6 (mkThreadResult 5 12%nat))) /\
  deref (snd (main fifo (@rev Z) 10 25 3 empty_world)) 0%nat = [3; 2; 1] /\
  deref (snd (main fifo (@rev Z) 10 25 3 empty_world)) 12%nat = [1; 2; 3].
Proof. repeat split; reflexivity. Qed.

(** ** Facts about the library functions *)

Section ItertoolsFacts.
Variable A : Type.
Implicit Types (l pool p : list A) (x : A).

Lemma selects_fst l : map fst (selects l) = l.
Proof.
  induction l as [|x xs IH]; simpl; [reflexivity|].
  rewrite map_map; simpl. f_equal. exact IH.
Qed.

Lemma selects_length l : length (selects l) = length l.
Proof. now rewrite <- (selects_fst l) at 2; rewrite length_map. Qed.

Lemma selects_split l x r :
  In (x, r) (selects l) <->
  exists l1 l2, l = l1 ++ x :: l2 /\ r = l1 ++ l2.
Proof.
  revert x r; induction l as [|y ys IH]; intros x r; simpl.
  - split; [tauto|]. intros (l1 & l2 & E & _). now destruct l1.
  - split.
    + intros [E | H].
      * inversion E; subst. now exists [], r.
      * apply in_map_iff in H. destruct H as ([z q] & E & H).
        simpl in E; inversion E; subst.
        apply IH in H. destruct H as (l1 & l2 & -> & ->).
        now exists (y :: l1), l2.
    + intros (l1 & l2 & E & ->). destruct l1 as [|z l1]; simpl in *.
      * inversion E; subst. now left.
      * inversion E; subst. right. apply in_map_iff.
        exists (x, l1 ++ l2). split; [reflexivity|].
        apply IH. now exists l1, l2.
Qed.

Lemma selects_perm l x r : In (x, r) (selects l) -> Permutation l (x :: r).
Proof.
  intros H. apply selects_split in H. destruct H as (l1 & l2 & -> & ->).
  symmetry. apply Permutation_middle.
Qed.

Lemma selects_rest_length l x r :
  In (x, r) (selects l) -> length l = S (length r).
Proof. intros H. apply (Permutation_length (selects_perm _ _ _ H)). Qed.

(** With distinct elements, the element taken out determines the rest. *)
Lemma selects_rest_unique l x r r' :
  NoDup l -> In (x, r) (selects l) -> In (x, r') (selects l) -> r = r'.
Proof.
  intros ND H H'.
  apply selects_split in H, H'.
  destruct H as (l1 & l2 & E & ->), H' as (k1 & k2 & E' & ->).
  subst l. revert k1 E' ND. induction l1 as [|a l1 IH]; intros k1 E ND.
  - destruct k1 as [|b k1]; simpl in *.
    + now inversion E.
    + inversion E; subst. inversion ND as [|? ? Hn _]; subst.
      exfalso. apply Hn. apply in_or_app. right. now left.
  - destruct k1 as [|b k1]; simpl in *.
    + inversion E; subst. inversion ND as [|? ? Hn _]; subst.
      exfalso. apply Hn. apply in_or_app. right. now left.
    + inversion E; subst. f_equal. apply IH; [assumption|].
      now inversion ND.
Qed.

Lemma length_flat_map_const (B : Type) (f : B -> list (list A)) c (xs : list B) :
  (forall b, In b xs -> length (f b) = c) ->
  length (flat_map f xs) = (length xs * c)%nat.
Proof.
  induction xs as [|b xs IH]; intros H; simpl; [reflexivity|].
  rewrite length_app, H by now left.
  rewrite IH; [reflexivity|]. intros b' Hb. apply H. now right.
Qed.

Lemma permutations_of_length_count n : forall pool,
  length pool = n -> length (permutations_of_length n pool) = fact n.
Proof.
  induction n as [|k IH]; intros pool Hl; simpl; [reflexivity|].
  rewrite length_flat_map_const with (c := fact k).
  - now rewrite selects_length, Hl.
  - intros [x r] Hin. simpl. rewrite length_map. apply IH.
    apply selects_rest_length in Hin. lia.
Qed.

Lemma permutations_of_length_sound n : forall pool p,
  length pool = n -> In p (permutations_of_length n pool) -> Permutation pool p.
Proof.
  induction n as [|k IH]; intros pool p Hl Hin; simpl in Hin.
  - destruct Hin as [<- | []]. destruct pool; [constructor | discriminate].
  - apply in_flat_map in Hin. destruct Hin as ([x r] & Hs & Hp).
    simpl in Hp. apply in_map_iff in Hp. destruct Hp as (q & <- & Hq).
    rewrite (selects_perm _ _ _ Hs). constructor.
    apply IH; [|assumption]. apply selects_rest_length in Hs. lia.
Qed.

Lemma permutations_of_length_complete n : forall pool p,
  length pool = n -> Permutation pool p -> In p (permutations_of_length n pool).
Proof.
  induction n as [|k IH]; intros pool p Hl HP; simpl.
  - destruct pool; [|discriminate].
    apply Permutation_nil in HP. subst. now left.
  - destruct p as [|x q].
    + apply Permutation_sym, Permutation_nil in HP. subst. discriminate.
    + destruct (Permutation_vs_cons_inv HP) as (l1 & l2 & E).
      subst pool. apply in_flat_map. exists (x, l1 ++ l2). split.
      * apply selects_split. now exists l1, l2.
      * simpl. apply in_map. apply IH.
        -- rewrite length_app in *. simpl in Hl. lia.
        -- apply Permutation_cons_inv with (a := x).
           rewrite <- HP. apply Permutation_middle.
Qed.

Lemma NoDup_flat_map (B C : Type) (f : B -> list C) (xs : list B) :
  NoDup xs ->
  (forall b, In b xs -> NoDup (f b)) ->
  (forall b b' c, In b xs -> In b' xs -> In c (f b) -> In c (f b') -> b = b') ->
  NoDup (flat_map f xs).
Proof.
  induction xs as [|b xs IH]; intros ND Hin Hdis; simpl; [constructor|].
  inversion ND as [|? ? Hnb ND']; subst.
  assert (Hrest : NoDup (flat_map f xs)).
  { apply IH; auto.
    - intros; apply Hin; now right.
    - intros b1 b2 c H1 H2. apply Hdis; now right. }
  assert (Hhead : NoDup (f b)) by (apply Hin; now left).
  revert Hhead.
  assert (Hsep : forall c, In c (f b) -> ~ In c (flat_map f xs)).
  { intros c Hc Hc'. apply in_flat_map in Hc'. destruct Hc' as (b' & Hb' & Hc').
    assert (b = b') by (apply (Hdis b b' c); auto; [now left | now right]).
    subst. contradiction. }
  revert Hsep. generalize (f b) as cs.
  induction cs as [|c cs IHc]; intros Hsep Hhead; simpl; [assumption|].
  inversion Hhead; subst. constructor.
  - intros Hc. apply in_app_or in Hc. destruct Hc as [Hc | Hc]; [contradiction|].
    apply (Hsep c); [now left | assumption].
  - apply IHc; [|assumption]. intros c' Hc'. apply Hsep. now right.
Qed.

Lemma selects_NoDup l : NoDup l -> NoDup (selects l).
Proof.
  intros ND. apply (NoDup_map_inv fst). now rewrite selects_fst.
Qed.

Lemma permutations_of_length_NoDup n : forall pool,
  length pool = n -> NoDup pool -> NoDup (permutations_of_length n pool).
Proof.
  induction n as [|k IH]; intros pool Hl ND; simpl.
  - constructor; [intros [] | constructor].
  - apply NoDup_flat_map.
    + now apply selects_NoDup.
    + intros [x r] Hs. simpl.
      assert (Hr : NoDup r).
      { pose proof (Permutation_NoDup (selects_perm _ _ _ Hs) ND) as H.
        now inversion H. }
      apply Finite.Injective_map_NoDup.
      * intros q q' E. now inversion E.
      * apply IH; [|assumption]. apply selects_rest_length in Hs. lia.
    + intros [x r] [x' r'] c Hs Hs' Hc Hc'. simpl in *.
      apply in_map_iff in Hc, Hc'.
      destruct Hc as (q & <- & _), Hc' as (q' & E & _).
      inversion E; subst. f_equal.
      eapply selects_rest_unique; eassumption.
Qed.
End ItertoolsFacts.

Section ItertoolsMap.
Variables (A B : Type) (f : A -> B).

Lemma selects_map (l : list A) :
  selects (map f l) = map (fun xr => (f (fst xr), map f (snd xr))) (selects l).
Proof.
  induction l as [|x xs IH]; simpl; [reflexivity|].
  rewrite IH, !map_map. reflexivity.
Qed.

(** The enumeration never looks at the elements: it commutes with any
    renaming of them. *)
Lemma permutations_of_length_map n : forall l : list A,
  permutations_of_length n (map f l) = map (map f) (permutations_of_length n l).
Proof.
  induction n as [|k IH]; intros l; simpl; [reflexivity|].
  rewrite selects_map, flat_map_concat_map, map_map. simpl.
  rewrite flat_map_concat_map, concat_map, map_map.
  f_equal. apply map_ext. intros [x r]. simpl.
  rewrite IH, !map_map. reflexivity.
Qed.
End ItertoolsMap.

Lemma factorial_fact n : factorial n = Z.of_nat (fact n).
Proof.
  induction n as [|k IH]; [reflexivity|].
  change (factorial (S k)) with (Z.of_nat (S k) * factorial k).
  rewrite IH, <- Nat2Z.inj_mul. reflexivity.
Qed.

Lemma map_nth_seq (l : list Z) d :
  map (fun i => nth i l d) (seq 0 (length l)) = l.
Proof.
  induction l as [|x l IH]; simpl; [reflexivity|].
  f_equal. rewrite <- seq_shift, map_map. exact IH.
Qed.

Lemma seq_from a n : seq a n = map (fun k => (a + k)%nat) (seq 0 n).
Proof.
  revert a; induction n as [|n IH]; intros a; simpl; [reflexivity|].
  rewrite Nat.add_0_r. f_equal. rewrite IH, <- seq_shift, map_map.
  apply map_ext. intros k. lia.
Qed.

Lemma enumerate_from_snd (A : Type) (xs : list A) : forall k,
  map snd (enumerate_from k xs) = xs.
Proof. induction xs as [|x xs IH]; intros k; simpl; [|rewrite IH]; reflexivity. Qed.

(** ** Facts about the sortedness test *)

Lemma is_sorted_cons2 a b l :
  is_sorted (a :: b :: l) = (a <=? b) && is_sorted (b :: l).
Proof. reflexivity. Qed.

Lemma is_sorted_adjacent l :
  is_sorted l = true <->
  forall i, (S i < length l)%nat -> nth i l 0 <= nth (S i) l 0.
Proof.
  induction l as [|a [|b l] IH].
  - split; [simpl; intros; lia | reflexivity].
  - split; [simpl; intros; lia | reflexivity].
  - rewrite is_sorted_cons2, andb_true_iff, IH, Z.leb_le. split.
    + intros [Hab H] [|i] Hi; [exact Hab|].
      apply (H i). simpl in *. lia.
    + intros H. split.
      * apply (H O). simpl. lia.
      * intros i Hi. apply (H (S i)). simpl in *. lia.
Qed.

Lemma is_sorted_StronglySorted l :
  is_sorted l = true <-> StronglySorted Z.le l.
Proof.
  split.
  - intros H. apply Sorted_StronglySorted; [exact Z.le_trans|].
    induction l as [|a [|b l] IH]; auto.
    rewrite is_sorted_cons2, andb_true_iff, Z.leb_le in H.
    destruct H as [Hab H]. constructor; auto.
  - intros H. apply StronglySorted_Sorted in H.
    induction H as [|a l _ IH Hd]; [reflexivity|].
    destruct l as [|b l]; [reflexivity|].
    rewrite is_sorted_cons2, IH, andb_true_r. apply Z.leb_le.
    now inversion Hd.
Qed.

(** Two non-decreasing arrangements of the same elements coincide. *)
Lemma sorted_permutation_unique l1 : forall l2,
  is_sorted l1 = true -> is_sorted l2 = true -> Permutation l1 l2 -> l1 = l2.
Proof.
  intros l2 H1 H2. apply is_sorted_StronglySorted in H1, H2.
  revert l2 H2. induction H1 as [|a l1 S1 IH Ha]; intros l2 S2 HP.
  - apply Permutation_nil in HP. now subst.
  - destruct S2 as [|b l2 S2 Hb].
    + apply Permutation_sym, Permutation_nil in HP. discriminate.
    + assert (a = b).
      { rewrite Forall_forall in Ha, Hb.
        assert (Hin1 : In b (a :: l1))
          by (apply (Permutation_in _ (Permutation_sym HP)); now left).
        assert (Hin2 : In a (b :: l2))
          by (apply (Permutation_in _ HP); now left).
        destruct Hin1 as [-> | Hin1]; [reflexivity|].
        destruct Hin2 as [-> | Hin2]; [reflexivity|].
        apply Z.le_antisymm; auto. }
      subst b. f_equal. apply IH; [assumption|].
      now apply Permutation_cons_inv in HP.
Qed.

Lemma insert_perm x l : Permutation (x :: l) (insert x l).
Proof.
  induction l as [|y r IH]; simpl; [reflexivity|].
  destruct (x <=? y); [reflexivity|].
  rewrite perm_swap. now constructor.
Qed.

Lemma insert_sorted x l : is_sorted l = true -> is_sorted (insert x l) = true.
Proof.
  induction l as [|y r IH]; intros H; [reflexivity|].
  change (insert x (y :: r)) with (if x <=? y then x :: y :: r else y :: insert x r).
  destruct (x <=? y) eqn:E.
  - rewrite is_sorted_cons2, E. exact H.
  - apply Z.leb_gt in E. destruct r as [|z r].
    + change (insert x []) with [x]. rewrite is_sorted_cons2.
      apply andb_true_iff. split; [apply Z.leb_le; lia | reflexivity].
    + rewrite is_sorted_cons2, andb_true_iff in H. destruct H as [Hyz H].
      specialize (IH H).
      change (insert x (z :: r))
        with (if x <=? z then x :: z :: r else z :: insert x r) in *.
      destruct (x <=? z) eqn:E'.
      * rewrite !is_sorted_cons2, E', H, andb_true_r.
        apply Z.leb_le. lia.
      * rewrite is_sorted_cons2, Hyz. exact IH.
Qed.

Lemma insertion_sort_perm l : Permutation l (insertion_sort l).
Proof.
  induction l as [|x l IH]; simpl; [reflexivity|].
  rewrite <- insert_perm. now constructor.
Qed.

Lemma insertion_sort_sorted l : is_sorted (insertion_sort l) = true.
Proof.
  induction l as [|x l IH]; simpl; [reflexivity|]. now apply insert_sorted.
Qed.

(** Some permutation passes the test. *)
Lemma sorted_permutation_exists a :
  (1 <= length (filter is_sorted (permutations a)))%nat.
Proof.
  assert (H : In (insertion_sort a) (filter is_sorted (permutations a))).
  { apply filter_In. split; [|apply insertion_sort_sorted].
    apply permutations_of_length_complete; [reflexivity|].
    apply insertion_sort_perm. }
  destruct (filter is_sorted (permutations a)); [destruct H | simpl; lia].
Qed.

(** With distinct elements exactly one permutation passes the test. *)
Lemma sorted_permutation_single a :
  NoDup a -> length (filter is_sorted (permutations a)) = 1%nat.
Proof.
  intros ND.
  assert (Hnd : NoDup (filter is_sorted (permutations a))).
  { apply NoDup_filter. now apply permutations_of_length_NoDup. }
  assert (Hall : forall p, In p (filter is_sorted (permutations a)) ->
                           p = insertion_sort a).
  { intros p Hp. apply filter_In in Hp. destruct Hp as [Hp Hs].
    apply sorted_permutation_unique; [assumption | apply insertion_sort_sorted |].
    apply permutations_of_length_sound in Hp; [|reflexivity].
    rewrite <- Hp. apply insertion_sort_perm. }
  pose proof (sorted_permutation_exists a) as Hex.
  destruct (filter is_sorted (permutations a)) as [|p [|q l]]; simpl in *; try lia.
  exfalso. inversion Hnd as [|? ? Hn _]; subst. apply Hn.
  rewrite (Hall p), (Hall q) by auto. now left.
Qed.

(** ** Reasoning about the store *)

Lemma upd_new (A : Type) (f : A -> A) (l : list A) (x : A) :
  upd (length l) f (l ++ [x]) = l ++ [f x].
Proof. induction l as [|y r IH]; simpl; [reflexivity | now rewrite IH]. Qed.

Lemma nth_new (A : Type) (l : list A) (x d : A) : nth (length l) (l ++ [x]) d = x.
Proof. rewrite app_nth2, Nat.sub_diag by lia. reflexivity. Qed.

Lemma upd_mid (A : Type) (f : A -> A) (l1 l2 : list A) (x : A) :
  upd (length l1) f (l1 ++ x :: l2) = l1 ++ f x :: l2.
Proof. induction l1 as [|y l1 IH]; simpl; [reflexivity | now rewrite IH]. Qed.

Lemma remove_at_mid (A : Type) (l1 l2 : list A) (x : A) :
  remove_at (length l1) (l1 ++ x :: l2) = l1 ++ l2.
Proof.
  induction l1 as [|y l1 IH]; [reflexivity|].
  change (remove_at (length (y :: l1)) ((y :: l1) ++ x :: l2))
    with (y :: remove_at (length l1) (l1 ++ x :: l2)).
  now rewrite IH.
Qed.

Lemma holds_deref w l a : holds w l a -> deref w l = a.
Proof. intros H. unfold deref. now apply nth_error_nth. Qed.

Lemma holds_grow w l a st' ext lk sa fi se :
  holds w l a -> st' = lists w ++ ext -> holds (mkWorld st' lk sa fi se) l a.
Proof.
  unfold holds. intros H ->. simpl. rewrite nth_error_app1; [assumption|].
  apply nth_error_Some. congruence.
Qed.

Lemma read_fresh (ls ps : list (list Z)) :
  map (fun i => nth i (ls ++ ps) []) (seq (length ls) (length ps)) = ps.
Proof.
  revert ls; induction ps as [|p ps IH]; intros ls; simpl; [reflexivity|].
  rewrite app_nth2, Nat.sub_diag by lia. simpl. f_equal.
  specialize (IH (ls ++ [p])).
  rewrite <- app_assoc, length_app, Nat.add_1_r in IH. exact IH.
Qed.

Lemma new_lists_spec ps : forall w,
  new_lists ps w =
  (Returned (seq (length (lists w)) (length ps)), set_lists (lists w ++ ps) w).
Proof.
  induction ps as [|p rest IH]; intros [ls lk st fi se]; simpl.
  - unfold ret, set_lists; simpl. now rewrite app_nil_r.
  - unfold bind, new_list. simpl. rewrite IH. unfold ret, set_lists; simpl.
    rewrite length_app, Nat.add_1_r, <- app_assoc. reflexivity.
Qed.

Lemma copies_stable st ext work :
  Forall (fun ip => (snd ip < length st)%nat) work ->
  copies (st ++ ext) work = copies st work.
Proof.
  intros H. unfold copies. apply map_ext_in. intros ip Hin.
  rewrite Forall_forall in H. now rewrite app_nth1 by auto.
Qed.

Lemma survivor_sorted st t :
  is_sorted (nth (t_arr t) st []) = true -> survivor st t = [entry t].
Proof. intros H. unfold survivor. now rewrite H. Qed.

Lemma survivor_unsorted st t :
  is_sorted (nth (t_arr t) st []) = false -> survivor st t = [].
Proof. intros H. unfold survivor. now rewrite H. Qed.

Lemma survivor_in st t x :
  In x (survivor st t) ->
  x = mkThreadResult (t_idx t) (t_arr t) /\ is_sorted (nth (t_arr t) st []) = true.
Proof.
  unfold survivor. destruct (is_sorted (nth (t_arr t) st [])); simpl.
  - intros [<- | []]. now split.
  - intros [].
Qed.

Lemma survivors_in st ts x :
  In x (flat_map (survivor st) ts) <->
  exists t, In t ts /\ x = mkThreadResult (t_idx t) (t_arr t) /\
            is_sorted (nth (t_arr t) st []) = true.
Proof.
  rewrite in_flat_map. split.
  - intros (t & Ht & Hx). apply survivor_in in Hx. now exists t.
  - intros (t & Ht & -> & Hs). exists t. split; [assumption|].
    unfold survivor. rewrite Hs. now left.
Qed.

Lemma survivors_length st ts :
  length (flat_map (survivor st) ts) =
  length (filter is_sorted (map (fun t => nth (t_arr t) st []) ts)).
Proof.
  induction ts as [|t ts IH]; simpl; [reflexivity|].
  rewrite length_app, IH. unfold survivor.
  now destruct (is_sorted (nth (t_arr t) st [])).
Qed.

(** ** The steps of a thread *)

Lemma thr_step_0 t w :
  thr_step (prog t 0) w =
  Some (if is_sorted (nth (t_arr t) (lists w) []) then prog t 1
        else Fin (Returned tt), w).
Proof.
  unfold prog, check_sort. simpl. unfold read_list.
  destruct (is_sorted (nth (t_arr t) (lists w) [])); reflexivity.
Qed.

Lemma thr_step_1 t w :
  thr_step (prog t 1) w =
  if lock (nth (t_results t) (lockeds w) (mkLocked false [])) then None
  else Some (prog t 2,
             set_lockeds (upd (t_results t) (fun o => mkLocked true (item o))
                              (lockeds w)) w).
Proof.
  unfold prog, with_. simpl. unfold Locked_enter.
  destruct (lock (nth (t_results t) (lockeds w) (mkLocked false []))); reflexivity.
Qed.

Lemma thr_step_2 t w :
  thr_step (prog t 2) w =
  Some (prog t 3,
        set_lockeds (upd (t_results t)
                         (fun o => mkLocked (lock o) (item o ++ [entry t]))
                         (lockeds w)) w).
Proof. reflexivity. Qed.

Lemma thr_step_3 t k w :
  thr_step (prog t (S (S (S k)))) w =
  Some (Fin (Returned tt),
        set_lockeds (upd (t_results t) (fun o => mkLocked false (item o))
                         (lockeds w)) w).
Proof. reflexivity. Qed.

Lemma prog_atom t k : exists step, prog t k = Atom step.
Proof. destruct k as [|[|[|k]]]; eexists; reflexivity. Qed.

Lemma run_on_step p w :
  run_on p w =
  match thr_step p w with
  | None => (p, w)
  | Some (p', w') => run_on p' w'
  end.
Proof. destruct p; reflexivity. Qed.

Lemma sweeps_nil n w : sweeps n [] w = (Returned [], w).
Proof. induction n as [|n IH]; [reflexivity|]. simpl. unfold bind, ret. simpl. apply IH. Qed.

(** ** Who holds the lock *)

Lemma holding_app a b : holding (a ++ b) = holding a || holding b.
Proof. apply existsb_app. Qed.

Lemma holding_cons tk a : holding (tk :: a) = holder tk || holding a.
Proof. reflexivity. Qed.

Lemma holding_without l1 tk l2 :
  holding (l1 ++ tk :: l2) = false -> holding (l1 ++ l2) = false.
Proof.
  rewrite !holding_app, holding_cons. intros H.
  apply orb_false_iff in H. destruct H as [H1 H].
  apply orb_false_iff in H. destruct H as [_ H2]. now rewrite H1, H2.
Qed.

Lemma quiet_filter a : holding a = false <-> filter holder a = [].
Proof.
  induction a as [|tk a IH]; simpl; [tauto|].
  destruct (holder tk); simpl; [split; discriminate | exact IH].
Qed.

Lemma quiet_appended st a : holding a = false -> flat_map (appended st) a = [].
Proof.
  induction a as [|[t k] a IH]; [reflexivity|].
  rewrite holding_cons. intros H.
  apply orb_false_iff in H. destruct H as [Hk Ha].
  change (flat_map (appended st) ((t, k) :: a))
    with (appended st (t, k) ++ flat_map (appended st) a).
  rewrite IH by assumption. unfold holder in Hk. cbn [snd] in Hk.
  apply Nat.leb_gt in Hk. unfold appended. cbn [snd].
  destruct (3 <=? k)%nat eqn:E; [apply Nat.leb_le in E; lia | reflexivity].
Qed.

(** When the thread in the middle holds the lock, no other does. *)
Lemma holder_alone l1 tk l2 :
  (length (filter holder (l1 ++ tk :: l2)) <= 1)%nat -> holder tk = true ->
  holding l1 = false /\ holding l2 = false.
Proof.
  rewrite filter_app. simpl. intros H Hk. rewrite Hk in H.
  rewrite length_app in H. simpl in H.
  split; apply quiet_filter.
  - destruct (filter holder l1); [reflexivity | simpl in H; lia].
  - destruct (filter holder l2); [reflexivity | simpl in H; lia].
Qed.

Lemma filter_holder_mid l1 tk l2 :
  holding l1 = false -> holding l2 = false ->
  (length (filter holder (l1 ++ tk :: l2)) <= 1)%nat.
Proof.
  intros H1 H2. apply quiet_filter in H1, H2.
  rewrite filter_app. simpl. rewrite H1, H2.
  destruct (holder tk); simpl; lia.
Qed.

Lemma filter_holder_out l1 tk l2 :
  (length (filter holder (l1 ++ tk :: l2)) <= 1)%nat ->
  (length (filter holder (l1 ++ l2)) <= 1)%nat.
Proof.
  rewrite !filter_app. simpl. rewrite !length_app.
  destruct (holder tk); simpl; lia.
Qed.

Lemma filter_holder_swap l1 tk tk' l2 :
  holder tk' = holder tk ->
  length (filter holder (l1 ++ tk' :: l2)) =
  length (filter holder (l1 ++ tk :: l2)).
Proof.
  intros H. rewrite !filter_app, !length_app. cbn [filter]. rewrite H.
  now destruct (holder tk).
Qed.

Lemma shape_quiet lk st fi0 se0 ls sa F :
  shape lk st fi0 se0 ls sa [] F =
  mkWorld ls (lk ++ [mkLocked false (flat_map (survivor st) F)]) sa (fi0 ++ F) se0.
Proof. unfold shape. simpl. now rewrite app_nil_r. Qed.

(** ** The invariant of a pass

    While the threads of a pass run, the world keeps the form [shape]: the
    lock is held exactly when a live thread is between [__enter__] and
    [__exit__], there is at most one such thread, and the results list
    holds the entries of the threads that came to their end, in that order,
    followed by the entry of the thread that has appended and not yet
    released the lock. *)

Section Shape.
Variables (lk : list Locked) (st : list (list Z)) (fi0 : list Thread)
          (se0 : list string).

Local Notation "'shape''" := (shape lk st fi0 se0).
Local Notation "'wf''" := (wf (length lk) st).

Lemma sorted_in_prefix ls ext (t : Thread) :
  st = ls ++ ext -> (t_arr t < length ls)%nat ->
  nth (t_arr t) ls [] = nth (t_arr t) st [].
Proof. intros -> H. now rewrite app_nth1. Qed.

(** One step of one live thread, in a world of the expected shape. *)
Lemma thr_step_shape ls sa l1 t k l2 F :
  wf' ls (l1 ++ (t, k) :: l2) ->
  match next st (holding (l1 ++ l2)) t k with
  | None =>
      thr_step (prog t k) (shape' ls sa (l1 ++ (t, k) :: l2) F) = None
  | Some (Some k') =>
      thr_step (prog t k) (shape' ls sa (l1 ++ (t, k) :: l2) F) =
      Some (prog t k', shape' ls sa (l1 ++ (t, k') :: l2) F) /\
      wf' ls (l1 ++ (t, k') :: l2)
  | Some None =>
      exists w',
        thr_step (prog t k) (shape' ls sa (l1 ++ (t, k) :: l2) F) =
        Some (Fin (Returned tt), w') /\
        thread_return t w' = (Returned tt, shape' ls sa (l1 ++ l2) (F ++ [t])) /\
        wf' ls (l1 ++ l2)
  end.
Proof.
  intros (Hok & Hone & ext & Hext).
  assert (Hok' := Hok). apply Forall_app in Hok'. destruct Hok' as [Hok1 Hok2].
  apply Forall_cons_iff in Hok2. destruct Hok2 as [(Hr & Hb & Hs) Hok3].
  simpl in Hr, Hb, Hs.
  assert (Hrest : Forall (ok (length lk) st (length ls)) (l1 ++ l2))
    by (apply Forall_app; now split).
  assert (Hmid : forall k', ((1 <= k')%nat ->
                             is_sorted (nth (t_arr t) st []) = true) ->
            Forall (ok (length lk) st (length ls)) (l1 ++ (t, k') :: l2)).
  { intros k' Hk'. apply Forall_app. split; [assumption|].
    constructor; [|assumption]. repeat split; assumption. }
  destruct k as [|[|[|k]]]; simpl next.
  - (* the test *)
    rewrite thr_step_0. simpl lists.
    rewrite (@sorted_in_prefix ls ext t Hext Hb).
    destruct (is_sorted (nth (t_arr t) st [])) eqn:E.
    + split.
      * unfold shape. now rewrite !holding_app, !flat_map_app.
      * split; [apply Hmid; auto|]. split; [|now exists ext].
        now rewrite (@filter_holder_swap l1 (t, O) (t, 1%nat) l2).
    + eexists. split; [reflexivity|]. split.
      * unfold thread_return, set_finished, shape. simpl.
        rewrite !holding_app, !flat_map_app. simpl.
        rewrite (@survivor_unsorted st t E).
        now rewrite !app_nil_r, <- app_assoc.
      * split; [assumption|]. split; [|now exists ext].
        eapply filter_holder_out. eassumption.
  - (* __enter__ *)
    rewrite thr_step_1. unfold shape at 1 2. simpl lockeds.
    rewrite Hr, nth_new. simpl lock.
    rewrite !holding_app. simpl. rewrite <- holding_app.
    destruct (holding (l1 ++ l2)) eqn:E; [reflexivity|].
    split.
    + unfold set_lockeds, shape. simpl. rewrite upd_new. simpl.
      rewrite !holding_app. simpl. rewrite orb_true_r.
      now rewrite !flat_map_app.
    + split; [apply Hmid; auto|]. split; [|now exists ext].
      rewrite holding_app in E. apply orb_false_iff in E.
      now apply filter_holder_mid.
  - (* append *)
    destruct (@holder_alone l1 (t, 2%nat) l2 Hone eq_refl) as [H1 H2].
    rewrite thr_step_2. split.
    + unfold set_lockeds, shape. simpl. rewrite Hr, upd_new. simpl.
      rewrite !holding_app, !flat_map_app. simpl.
      rewrite !(@quiet_appended st _ H1), !(@quiet_appended st _ H2).
      unfold appended. simpl. rewrite survivor_sorted by (apply Hs; lia).
      now rewrite !app_nil_r.
    + split; [apply Hmid; auto|]. split; [|now exists ext].
      now apply filter_holder_mid.
  - (* __exit__ *)
    destruct (@holder_alone l1 (t, S (S (S k))) l2 Hone eq_refl) as [H1 H2].
    rewrite thr_step_3. eexists. split; [reflexivity|]. split.
    + unfold thread_return, set_finished, set_lockeds, shape. simpl.
      rewrite Hr, upd_new. simpl.
      rewrite !holding_app, !flat_map_app. simpl.
      rewrite !(@quiet_appended st _ H1), !(@quiet_appended st _ H2), H1, H2.
      unfold appended. simpl. rewrite survivor_sorted by (apply Hs; lia).
      now rewrite !app_nil_r, <- app_assoc.
    + split; [assumption|]. split; [|now exists ext].
      eapply filter_holder_out. eassumption.
Qed.

(** The live thread at position [i] takes a step. *)
Lemma step_at_shape ls sa alive F i :
  wf' ls alive ->
  exists alive' F',
    step_at i (map conc alive) (shape' ls sa alive F) =
    (Returned (map conc alive'), shape' ls sa alive' F') /\
    wf' ls alive' /\
    Permutation (F' ++ map fst alive') (F ++ map fst alive).
Proof.
  intros Hwf. unfold step_at. rewrite nth_error_map.
  destruct (nth_error alive i) as [[t k]|] eqn:E.
  2:{ exists alive, F. split; [reflexivity | split; [assumption | reflexivity]]. }
  apply nth_error_split in E. destruct E as (l1 & l2 & -> & <-).
  pose proof (@thr_step_shape ls sa l1 t k l2 F Hwf) as H.
  cbn [option_map]. unfold conc at 1. cbn [fst snd].
  destruct (prog_atom t k) as [step Hp]. rewrite Hp in H |- *.
  cbn [thr_step] in H.
  destruct (next st (holding (l1 ++ l2)) t k) as [[k'|]|].
  - destruct H as [H Hwf']. rewrite H.
    destruct (prog_atom t k') as [step' Hp']. unfold settle. rewrite Hp'.
    exists (l1 ++ (t, k') :: l2), F. split; [|split; [assumption|]].
    + unfold ret. f_equal. rewrite !map_app. simpl map.
      rewrite <- (length_map conc l1), upd_mid.
      change (conc (t, k')) with (t, prog t k'). now rewrite Hp'.
    + rewrite !map_app. reflexivity.
  - destruct H as (w' & H & Hret & Hwf'). rewrite H.
    exists (l1 ++ l2), (F ++ [t]). split; [|split; [assumption|]].
    + unfold settle, bind. rewrite Hret. unfold ret. f_equal.
      rewrite !map_app. simpl map.
      now rewrite <- (length_map conc l1), remove_at_mid.
    + rewrite !map_app. simpl. rewrite <- !app_assoc.
      apply Permutation_app_head. simpl. apply Permutation_middle.
  - rewrite H. exists (l1 ++ (t, k) :: l2), F.
    split; [|split; [assumption | reflexivity]].
    reflexivity.
Qed.

Lemma run_some_shape ls sa picks : forall alive F,
  wf' ls alive ->
  exists alive' F',
    run_some picks (map conc alive) (shape' ls sa alive F) =
    (Returned (map conc alive'), shape' ls sa alive' F') /\
    wf' ls alive' /\
    Permutation (F' ++ map fst alive') (F ++ map fst alive).
Proof.
  induction picks as [|c more IH]; intros alive F Hwf; simpl.
  - exists alive, F. split; [reflexivity | split; [assumption | reflexivity]].
  - destruct (@step_at_shape ls sa alive F (c mod length (map conc alive)) Hwf)
      as (alive1 & F1 & E1 & Hwf1 & HP1).
    destruct (IH alive1 F1 Hwf1) as (alive2 & F2 & E2 & Hwf2 & HP2).
    exists alive2, F2. split; [|split; [assumption|]].
    + unfold bind. now rewrite E1, E2.
    + now rewrite HP2.
Qed.

(** A live thread that goes on as far as it can either comes to wait for
    the lock, which another thread then holds, or reaches its end. *)
Lemma run_on_shape ls sa l1 t l2 F n : forall k,
  (4 <= n + k)%nat ->
  wf' ls (l1 ++ (t, k) :: l2) ->
  (run_on (prog t k) (shape' ls sa (l1 ++ (t, k) :: l2) F) =
   (prog t 1, shape' ls sa (l1 ++ (t, 1%nat) :: l2) F) /\
   wf' ls (l1 ++ (t, 1%nat) :: l2) /\
   holding (l1 ++ l2) = true) \/
  (exists w',
     run_on (prog t k) (shape' ls sa (l1 ++ (t, k) :: l2) F) =
     (Fin (Returned tt), w') /\
     thread_return t w' = (Returned tt, shape' ls sa (l1 ++ l2) (F ++ [t])) /\
     wf' ls (l1 ++ l2)).
Proof.
  induction n as [|n IH]; intros k Hn Hwf.
  - assert (Hk : exists j, k = S (S (S j))) by (exists (k - 3)%nat; lia).
    destruct Hk as [j ->]. right.
    pose proof (@thr_step_shape ls sa l1 t _ l2 F Hwf) as H. simpl next in H.
    destruct H as (w' & H & Hret & Hwf'). exists w'.
    rewrite run_on_step, H. auto.
  - pose proof (@thr_step_shape ls sa l1 t k l2 F Hwf) as H.
    rewrite run_on_step.
    destruct (next st (holding (l1 ++ l2)) t k) as [[k'|]|] eqn:E.
    + destruct H as [H Hwf']. rewrite H.
      assert (Hk' : k' = S k).
      { destruct k as [|[|[|k]]]; simpl in E.
        - destruct (is_sorted _); now inversion E.
        - destruct (holding _); now inversion E.
        - now inversion E.
        - discriminate. }
      apply IH; [lia | assumption].
    + destruct H as (w' & H & Hret & Hwf'). rewrite H. right. exists w'. auto.
    + rewrite H. left.
      assert (Hk : k = 1%nat /\ holding (l1 ++ l2) = true).
      { destruct k as [|[|[|k]]]; simpl in E; try discriminate.
        destruct (holding (l1 ++ l2)); [auto | discriminate]. }
      destruct Hk as [-> Hh]. auto.
Qed.

(** One round: what is left are threads waiting for the lock, and none if
    the lock was free at the start. *)
Lemma sweep_shape ls sa : forall alive pre F,
  wf' ls (pre ++ alive) ->
  exists rem F',
    sweep (map conc alive) (shape' ls sa (pre ++ alive) F) =
    (Returned (map conc rem), shape' ls sa (pre ++ rem) F') /\
    wf' ls (pre ++ rem) /\
    holding rem = false /\
    Permutation (F' ++ map fst rem) (F ++ map fst alive) /\
    (holding (pre ++ alive) = false -> rem = []).
Proof.
  induction alive as [|[t k] rest IH]; intros pre F Hwf.
  - exists [], F. split; [reflexivity|]. split; [assumption|].
    split; [reflexivity|]. split; [reflexivity | reflexivity].
  - cbn [map sweep]. unfold conc at 1. cbn [fst snd].
    destruct (@run_on_shape ls sa pre t rest F 4 k ltac:(lia) Hwf)
      as [(E & Hwf' & Hbusy) | (w' & E & Hret & Hwf')]; rewrite E.
    + destruct (prog_atom t 1) as [step Hp]. rewrite Hp.
      replace (pre ++ (t, 1%nat) :: rest) with ((pre ++ [(t, 1%nat)]) ++ rest)
        in * by now rewrite <- app_assoc.
      destruct (IH (pre ++ [(t, 1%nat)]) F Hwf') as (rem & F' & E' & Hwf'' & Hq & HP & _).
      exists ((t, 1%nat) :: rem), F'.
      rewrite <- !app_assoc in *. cbn [app] in *.
      split; [|split; [assumption|split; [|split]]].
      * unfold bind. rewrite E'. unfold ret. cbn [map].
        change (conc (t, 1%nat)) with (t, prog t 1). now rewrite Hp.
      * rewrite holding_cons, Hq. reflexivity.
      * cbn [map fst]. rewrite <- !Permutation_middle. now constructor.
      * intros Hfree. apply holding_without in Hfree. congruence.
    + destruct (IH pre (F ++ [t]) Hwf') as (rem & F' & E' & Hwf'' & Hq & HP & Hfree).
      exists rem, F'. split; [|split; [assumption|split; [assumption|split]]].
      * unfold bind. rewrite Hret. exact E'.
      * rewrite HP. cbn [map fst]. rewrite <- app_assoc. reflexivity.
      * intros Hf. apply Hfree. eapply holding_without. eassumption.
Qed.

(** Two rounds bring every live thread to its end. *)
Lemma sweeps_shape ls sa alive F n :
  wf' ls alive ->
  (length alive <= n)%nat ->
  exists F',
    sweeps (S n) (map conc alive) (shape' ls sa alive F) =
    (Returned [], shape' ls sa [] F') /\
    Permutation F' (F ++ map fst alive).
Proof.
  intros Hwf Hn.
  destruct (@sweep_shape ls sa alive [] F Hwf)
    as (rem1 & F1 & E1 & Hwf1 & Hq1 & HP1 & Hfree1).
  cbn [app] in *. cbn [sweeps]. unfold bind at 1. rewrite E1.
  destruct n as [|n].
  - destruct alive; [|simpl in Hn; lia].
    rewrite Hfree1 by reflexivity. exists F1. split; [reflexivity|].
    rewrite Hfree1 in HP1 by reflexivity. now rewrite app_nil_r in HP1.
  - destruct (@sweep_shape ls sa rem1 [] F1 Hwf1)
      as (rem2 & F2 & E2 & Hwf2 & Hq2 & HP2 & Hfree2).
    cbn [app] in *. specialize (Hfree2 Hq1). subst rem2.
    cbn [sweeps]. unfold bind at 1. rewrite E2. cbn [map].
    rewrite sweeps_nil. exists F2. split; [reflexivity|].
    cbn [map] in HP2. rewrite app_nil_r in HP2. now rewrite HP2.
Qed.

(** The closing [with] block, entered with the lock free. *)
Lemma closing_block ls sa fi se count res :
  run (with_ (length lk) (fun r =>
         rs <~ lift (items r) ;; lift (first_result count rs)))
      (mkWorld ls (lk ++ [mkLocked false res]) sa fi se) =
  (first_outcome count res, mkWorld ls (lk ++ [mkLocked false res]) sa fi se).
Proof.
  unfold with_. cbn [tbind lift run]. unfold Locked_enter at 1.
  cbn [lockeds]. rewrite nth_new. cbn [lock].
  cbn [tbind finally lift run]. unfold items at 1. cbn [lockeds set_lockeds].
  rewrite upd_new, nth_new. cbn [item].
  destruct res as [|x more]; simpl; rewrite upd_new; reflexivity.
Qed.

Section PassFacts.
Variable sch : scheduler.

Lemma join_all_shape ls sa alive F :
  wf' ls alive ->
  exists F',
    join_all sch (map conc alive) (shape' ls sa alive F) =
    (Returned tt, shape' ls sa [] F') /\
    Permutation F' (F ++ map fst alive).
Proof.
  intros Hwf. unfold join_all.
  destruct (@run_some_shape ls sa (at_join sch) alive F Hwf)
    as (alive1 & F1 & E1 & Hwf1 & HP1).
  destruct (@sweeps_shape ls sa alive1 F1 (length (map conc alive1)) Hwf1)
    as (F2 & E2 & HP2).
  { now rewrite length_map. }
  exists F2. split.
  - unfold bind. rewrite E1, E2. reflexivity.
  - now rewrite HP2.
Qed.

Lemma shape_spawn ls sa alive F p t :
  set_started (sa ++ [t]) (set_lists (ls ++ [p]) (shape' ls sa alive F)) =
  shape' (ls ++ [p]) (sa ++ [t]) (alive ++ [(t, O)]) F.
Proof.
  unfold shape, set_started, set_lists. simpl.
  rewrite holding_app, flat_map_app. simpl.
  now rewrite orb_false_r, app_nil_r.
Qed.

Lemma wf_spawn ls alive p ext t :
  wf' ls alive -> st = (ls ++ [p]) ++ ext ->
  t_results t = length lk -> t_arr t = length ls ->
  wf' (ls ++ [p]) (alive ++ [(t, O)]).
Proof.
  intros (Hok & Hone & _) Hst Hr Ha. split; [|split].
  - apply Forall_app. split.
    + eapply Forall_impl; [|exact Hok]. intros tk (H1 & H2 & H3).
      repeat split; auto. rewrite length_app. simpl. lia.
    + constructor; [|constructor]. repeat split; simpl; auto.
      * rewrite length_app. simpl. lia.
      * intros H. lia.
  - rewrite filter_app. simpl. now rewrite app_nil_r.
  - now exists ext.
Qed.

(** The spawning loop. *)
Lemma spawn_shape : forall work alive ls sa F,
  wf' ls alive ->
  st = ls ++ copies ls work ->
  Forall (fun ip => (snd ip < length ls)%nat) work ->
  exists alive' F',
    spawn_all sch work (length lk) (map conc alive) (shape' ls sa alive F) =
    (Returned (map conc alive'),
     shape' st (sa ++ threads_of (length ls) work (length lk)) alive' F') /\
    wf' st alive' /\
    Permutation (F' ++ map fst alive')
                (F ++ map fst alive ++ threads_of (length ls) work (length lk)).
Proof.
  induction work as [|[idx perm] rest IH]; intros alive ls sa F Hwf Hst Hb.
  - simpl in Hst. rewrite app_nil_r in Hst. rewrite <- Hst in *.
    exists alive, F. simpl. rewrite !app_nil_r.
    split; [reflexivity | split; [assumption | reflexivity]].
  - apply Forall_cons_iff in Hb. destruct Hb as [Hperm Hrest]. simpl in Hperm.
    set (p := nth perm ls []).
    set (t := mkThread idx (length ls) (length lk)).
    assert (Hst' : st = (ls ++ [p]) ++ copies (ls ++ [p]) rest).
    { rewrite copies_stable by assumption. rewrite <- app_assoc. exact Hst. }
    assert (Hwf1 : wf' (ls ++ [p]) (alive ++ [(t, O)]))
      by (eapply wf_spawn; eauto).
    destruct (@run_some_shape (ls ++ [p]) (sa ++ [t]) (after_start sch idx)
                (alive ++ [(t, O)]) F Hwf1)
      as (alive1 & F1 & E1 & Hwf2 & HP1).
    destruct (IH alive1 (ls ++ [p]) (sa ++ [t]) F1 Hwf2 Hst')
      as (alive2 & F2 & E2 & Hwf3 & HP2).
    { eapply Forall_impl; [|exact Hrest]. simpl. intros ip H.
      rewrite length_app. simpl. lia. }
    exists alive2, F2. split; [|split; [assumption|]].
    + cbn [spawn_all].
      unfold bind at 1. unfold read_list at 1. cbv iota beta.
      change (nth perm (lists (shape' ls sa alive F)) []) with p.
      unfold bind at 1. unfold new_list at 1. cbv iota beta.
      unfold bind at 1. unfold thread_start at 1. cbv iota beta.
      change (length (lists (shape' ls sa alive F))) with (length ls).
      fold t. change (started (set_lists _ _)) with sa.
      rewrite shape_spawn.
      change (map conc alive ++ [(t, check_sort idx (length ls) (length lk))])
        with (map conc alive ++ map conc [(t, O)]).
      rewrite <- map_app. unfold bind at 1. rewrite E1, E2.
      rewrite length_app, Nat.add_1_r, <- app_assoc. reflexivity.
    + rewrite HP2, length_app, Nat.add_1_r, app_assoc, HP1, map_app.
      cbn [threads_of map fst]. fold t. rewrite <- !app_assoc. reflexivity.
Qed.
End PassFacts.
End Shape.

(** ** The threads of a pass *)

Lemma threads_of_enumerate r (xs : list loc) : forall b k,
  threads_of b (enumerate_from k xs) r =
  map (fun j => mkThread (Z.of_nat (k + j)) (b + j)%nat r) (seq 0 (length xs)).
Proof.
  induction xs as [|x xs IH]; intros b k; simpl; [reflexivity|].
  rewrite !Nat.add_0_r. f_equal.
  rewrite IH, <- seq_shift, map_map. apply map_ext. intros j.
  now rewrite !Nat.add_succ_r.
Qed.

(** Thread [k] of a pass owns a list holding permutation [k]. *)
Lemma pass_private (ls ps : list (list Z)) r :
  map (fun t => nth (t_arr t) (ls ++ ps ++ ps) [])
      (pass_threads (length ls) (length ps) r) = ps.
Proof.
  unfold pass_threads. rewrite map_map. simpl.
  etransitivity; [|apply (read_fresh (ls ++ ps) ps)].
  rewrite (seq_from (length (ls ++ ps))), map_map, length_app, app_assoc.
  reflexivity.
Qed.

Lemma pass_ids b n r :
  map t_idx (pass_threads b n r) = map Z.of_nat (seq 0 n).
Proof. unfold pass_threads. now rewrite map_map. Qed.

Lemma pass_threads_NoDup b n r : NoDup (pass_threads b n r).
Proof.
  unfold pass_threads. apply Finite.Injective_map_NoDup; [|apply seq_NoDup].
  intros k k' E. inversion E. lia.
Qed.

Lemma pass_threads_idx_inj b n r t t' :
  In t (pass_threads b n r) -> In t' (pass_threads b n r) ->
  t_idx t = t_idx t' -> t = t'.
Proof.
  unfold pass_threads. intros H H' E.
  apply in_map_iff in H, H'. destruct H as (k & <- & _), H' as (k' & <- & _).
  simpl in E. apply Nat2Z.inj in E. now subst.
Qed.

(** Who the winner is: some thread of the pass whose private list passed
    the test. *)
Lemma winner_thread (ls ps : list (list Z)) r order win more :
  Permutation order (pass_threads (length ls) (length ps) r) ->
  flat_map (survivor (ls ++ ps ++ ps)) order = win :: more ->
  is_sorted (nth (sorted_array win) (ls ++ ps ++ ps) []) = true /\
  In (nth (sorted_array win) (ls ++ ps ++ ps) []) ps.
Proof.
  intros HP E.
  assert (Hin : In win (flat_map (survivor (ls ++ ps ++ ps)) order))
    by (rewrite E; now left).
  apply in_flat_map in Hin. destruct Hin as (t & Ht & Hw).
  apply survivor_in in Hw. destruct Hw as [-> Hs]. simpl. split; [exact Hs|].
  apply (Permutation_in _ HP) in Ht.
  apply (in_map (fun t => nth (t_arr t) (ls ++ ps ++ ps) [])) in Ht.
  now rewrite pass_private in Ht.
Qed.

(** ** One pass of [tpqbogo] *)

Section PassSpec.
Variable sch : scheduler.

(** One pass, spelled out: the store grows by the permutations and by the
    threads' private copies, the new [Locked] object ends up holding, with
    its lock free, what the threads appended, which is what the threads
    have to append taken in the order [order] in which they came to their
    end, and the value returned is read off that list. *)
Lemma tpqbogo_spec arr w :
  let a := nth arr (lists w) [] in
  let ps := permutations a in
  let ts := pass_threads (length (lists w)) (length ps) (length (lockeds w)) in
  let st' := lists w ++ ps ++ ps in
  exists order,
    Permutation order ts /\
    tpqbogo sch arr w =
    (first_outcome (factorial (length a)) (flat_map (survivor st') order),
     mkWorld st' (lockeds w ++ [mkLocked false (flat_map (survivor st') order)])
             (started w ++ ts) (finished w ++ order) (stderr w)).
Proof.
  intros a ps ts st'. destruct w as [ls lk sa fi se]. simpl in *.
  set (work := enumerate (seq (length ls) (length ps))).
  assert (Hcopies : copies (ls ++ ps) work = ps).
  { unfold copies, work, enumerate.
    rewrite <- (map_map snd (fun i => nth i (ls ++ ps) [])).
    rewrite enumerate_from_snd. apply read_fresh. }
  assert (Hts : threads_of (length (ls ++ ps)) work (length lk) = ts).
  { unfold work, enumerate. rewrite threads_of_enumerate, length_seq, length_app.
    reflexivity. }
  assert (Hst : st' = (ls ++ ps) ++ copies (ls ++ ps) work).
  { rewrite Hcopies. unfold st'. now rewrite app_assoc. }
  destruct (@spawn_shape lk st' fi se sch work [] (ls ++ ps) sa [])
    as (alive1 & F1 & E1 & Hwf1 & HP1).
  { split; [constructor|]. split; [simpl; lia|]. exists (copies (ls ++ ps) work).
    exact Hst. }
  { exact Hst. }
  { unfold work, enumerate. apply Forall_forall. intros ip Hin.
    apply (in_map snd) in Hin. rewrite enumerate_from_snd in Hin.
    apply in_seq in Hin. rewrite length_app. lia. }
  destruct (@join_all_shape lk st' fi se sch st' (sa ++ threads_of (length (ls ++ ps)) work (length lk)) alive1 F1 Hwf1)
    as (F2 & E2 & HP2).
  rewrite Hts in *. simpl in HP1.
  exists F2. split.
  - now rewrite HP2, HP1.
  - unfold tpqbogo.
    unfold bind at 1. unfold read_list at 1. cbv iota beta.
    change (nth arr (lists _) []) with a. fold ps.
    unfold bind at 1. rewrite new_lists_spec. cbv iota beta.
    unfold bind at 1. unfold Locked_init at 1. cbv iota beta.
    change (length (lockeds (set_lists _ _))) with (length lk).
    change (length (lists _)) with (length ls).
    unfold bind at 1.
    change (enumerate (seq (length ls) (length ps))) with work.
    change (set_lockeds _ (set_lists _ _))
      with (mkWorld (ls ++ ps) (lk ++ [mkLocked false []]) sa fi se).
    rewrite shape_quiet in E1. simpl in E1. rewrite app_nil_r in E1.
    rewrite E1. cbv iota beta.
    unfold bind at 1. rewrite E2. cbv iota beta.
    rewrite shape_quiet. apply closing_block.
Qed.

(** A pass always returns: the results list is never empty. *)
Lemma tpqbogo_run arr w :
  let a := deref w arr in
  let ps := permutations a in
  let ts := pass_threads (length (lists w)) (length ps) (length (lockeds w)) in
  let st' := lists w ++ ps ++ ps in
  exists order win more,
    Permutation order ts /\
    flat_map (survivor st') order = win :: more /\
    tpqbogo sch arr w =
    (Returned (mkResult (factorial (length a)) win),
     mkWorld st' (lockeds w ++ [mkLocked false (win :: more)])
             (started w ++ ts) (finished w ++ order) (stderr w)).
Proof.
  intros a ps ts st'.
  destruct (tpqbogo_spec arr w) as (order & HP & E).
  change (nth arr (lists w) []) with a in HP, E.
  fold ps in HP, E. fold ts in HP, E. fold st' in E.
  assert (Hlen : length (flat_map (survivor st') order) =
                 length (filter is_sorted ps)).
  { rewrite (Permutation_length (Permutation_flat_map (survivor st') HP)).
    rewrite survivors_length. unfold st', ts. now rewrite pass_private. }
  pose proof (sorted_permutation_exists a) as Hex. fold ps in Hex.
  destruct (flat_map (survivor st') order) as [|win more] eqn:Eres.
  - simpl in Hlen. lia.
  - exists order, win, more. repeat split; auto.
Qed.
End PassSpec.

(** ** [main] *)

Lemma main_setup shuffled array_size w :
  (arr <- new_list (range 1 (array_size + 1)) ;; shuffle shuffled arr ;;; ret arr) w =
  (Returned (length (lists w)), after_shuffle shuffled array_size w).
Proof.
  destruct w as [ls lk st fi se].
  unfold bind, new_list, shuffle, bind, read_list, write_list, ret, after_shuffle,
    set_lists; simpl.
  now rewrite nth_new, upd_new.
Qed.

Lemma main_rejects sch shuffled t0 t1 array_size w :
  array_size < 1 ->
  main sch shuffled t0 t1 array_size w =
  (Exited 1,
   set_stderr (stderr w ++ [size_message]) (after_shuffle shuffled array_size w)).
Proof.
  intros H. apply Z.ltb_lt in H.
  pose proof (main_setup shuffled array_size w) as E.
  destruct w as [ls lk st fi se].
  unfold main, bind, new_list, shuffle, bind, read_list, write_list, ret in *.
  simpl in *. inversion E as [E']. rewrite E', H. reflexivity.
Qed.

Lemma main_runs sch shuffled t0 t1 array_size w :
  1 <= array_size ->
  main sch shuffled t0 t1 array_size w =
  (result <- tpqbogo sch (length (lists w)) ;;
   ret (mkMainResult (length (lists w)) (t1 - t0) result))
    (after_shuffle shuffled array_size w).
Proof.
  intros H. apply Z.ltb_ge in H.
  pose proof (main_setup shuffled array_size w) as E.
  destruct w as [ls lk st fi se].
  unfold main, bind, new_list, shuffle, bind, read_list, write_list, ret in *.
  simpl in *. inversion E as [E']. rewrite E', H. reflexivity.
Qed.

(** * The properties of the program *)

(** C1.  Whatever the array holds (any length from 1 up, any order), and
    however the threads are scheduled, [tpqbogo] returns a [Result] whose
    winning candidate passes the sortedness test: [is_sorted] applied to
    [successful_thread.sorted_array] is true. *)
Theorem winner_is_sorted sch w arr a :
  holds w arr a -> (1 <= length a)%nat ->
  exists r w',
    tpqbogo sch arr w = (Returned r, w') /\
    is_sorted (deref w' (sorted_array (successful_thread r))) = true.
Proof.
  intros Ha _.
  destruct (tpqbogo_run sch arr w) as (order & win & more & HP & Eres & E).
  destruct (@winner_thread _ _ _ _ _ _ HP Eres) as [Hs _].
  eexists _, _. split; [exact E|]. exact Hs.
Qed.

Lemma winner_is_sorted_witness :
  holds (world_with [3; 1; 2]) 1%nat [3; 1; 2] /\
  (1 <= length [3; 1; 2])%nat /\
  exists r w',
    tpqbogo lifo 1%nat (world_with [3; 1; 2]) = (Returned r, w') /\
    is_sorted (deref w' (sorted_array (successful_thread r))) = true.
Proof.
  assert (H1 : holds (world_with [3; 1; 2]) 1%nat [3; 1; 2]) by reflexivity.
  assert (H2 : (1 <= length [3; 1; 2])%nat) by (simpl; lia).
  split; [exact H1|]. split; [exact H2|].
  exact (@winner_is_sorted lifo _ _ _ H1 H2).
Defined.

(** C2.  For an array of any length from 1 up in any order, the winning
    candidate returned by [tpqbogo] has the same elements with the same
    multiplicities as the input array: it is a permutation of it. *)
Theorem winner_same_elements sch w arr a :
  holds w arr a -> (1 <= length a)%nat ->
  exists r w',
    tpqbogo sch arr w = (Returned r, w') /\
    Permutation a (deref w' (sorted_array (successful_thread r))).
Proof.
  intros Ha _.
  destruct (tpqbogo_run sch arr w) as (order & win & more & HP & Eres & E).
  destruct (@winner_thread _ _ _ _ _ _ HP Eres) as [_ Hin].
  eexists _, _. split; [exact E|]. unfold deref at 1. simpl.
  rewrite (holds_deref Ha) in *.
  apply permutations_of_length_sound in Hin; [assumption | reflexivity].
Qed.

Lemma winner_same_elements_witness :
  holds (world_with [2; 2; 1]) 1%nat [2; 2; 1] /\
  (1 <= length [2; 2; 1])%nat /\
  exists r w',
    tpqbogo eager 1%nat (world_with [2; 2; 1]) = (Returned r, w') /\
    Permutation [2; 2; 1] (deref w' (sorted_array (successful_thread r))).
Proof.
  assert (H1 : holds (world_with [2; 2; 1]) 1%nat [2; 2; 1]) by reflexivity.
  assert (H2 : (1 <= length [2; 2; 1])%nat) by (simpl; lia).
  split; [exact H1|]. split; [exact H2|].
  exact (@winner_same_elements eager _ _ _ H1 H2).
Defined.

(** C3.  For an array of length N >= 1 the [num_of_permutations] field of
    the returned [Result] is N!, and N! is also the number of permutations
    generated, the number of threads started on them (thread k on
    permutation k) and the number of threads that ran [check_sort] to its
    end. *)
Theorem permutation_count_is_factorial sch w arr a :
  holds w arr a -> (1 <= length a)%nat ->
  exists r w' ts fs,
    tpqbogo sch arr w = (Returned r, w') /\
    num_of_permutations r = Z.of_nat (fact (length a)) /\
    length (permutations a) = fact (length a) /\
    started w' = started w ++ ts /\
    map (fun t => deref w' (t_arr t)) ts = permutations a /\
    finished w' = finished w ++ fs /\
    Permutation fs ts.
Proof.
  intros Ha _.
  destruct (tpqbogo_run sch arr w) as (order & win & more & HP & Eres & E).
  rewrite (holds_deref Ha) in *.
  eexists _, _, _, order. split; [exact E|]. simpl.
  split; [apply factorial_fact|].
  split; [now apply permutations_of_length_count|].
  split; [reflexivity|].
  split; [apply pass_private|].
  split; [reflexivity | exact HP].
Qed.

Lemma permutation_count_is_factorial_witness :
  holds (world_with [2; 1]) 1%nat [2; 1] /\
  (1 <= length [2; 1])%nat /\
  exists r w' ts fs,
    tpqbogo fifo 1%nat (world_with [2; 1]) = (Returned r, w') /\
    num_of_permutations r = Z.of_nat (fact (length [2; 1])) /\
    length (permutations [2; 1]) = fact (length [2; 1]) /\
    started w' = started (world_with [2; 1]) ++ ts /\
    map (fun t => deref w' (t_arr t)) ts = permutations [2; 1] /\
    finished w' = finished (world_with [2; 1]) ++ fs /\
    Permutation fs ts.
Proof.
  assert (H1 : holds (world_with [2; 1]) 1%nat [2; 1]) by reflexivity.
  assert (H2 : (1 <= length [2; 1])%nat) by (simpl; lia).
  split; [exact H1|]. split; [exact H2|].
  exact (@permutation_count_is_factorial fifo _ _ _ H1 H2).
Defined.

(** C4, as the claim has it, fails at size 0: the run does not end in a
    raised exception that leaves the process alive, it ends the process
    with status 1. *)
Lemma size_zero_leaves_the_process :
  fst (main fifo (fun l => l) 0 0 0 empty_world) = Exited 1 /\
  ~ (exists e w', main fifo (fun l => l) 0 0 0 empty_world = (Raised e, w')).
Proof.
  split; [reflexivity|].
  intros (e & w' & H). vm_compute in H. discriminate H.
Qed.

(** C4, as the program has it.  For every size below 1, [main] prints its
    message on stderr and leaves the process with status 1 before
    [tpqbogo] is called: no thread has been started and no [Locked] object
    has been created. *)
Theorem nonpositive_size_exits sch shuffled t0 t1 w array_size :
  array_size < 1 ->
  exists w',
    main sch shuffled t0 t1 array_size w = (Exited 1, w') /\
    stderr w' = stderr w ++ [size_message] /\
    started w' = started w /\
    finished w' = finished w /\
    lockeds w' = lockeds w.
Proof.
  intros H. rewrite main_rejects by assumption.
  eexists. split; [reflexivity|]. repeat split.
Qed.

Lemma nonpositive_size_exits_witness :
  -2 < 1 /\
  exists w',
    main lifo (@rev Z) 7 9 (-2) (world_with [4]) = (Exited 1, w') /\
    stderr w' = stderr (world_with [4]) ++ [size_message] /\
    started w' = started (world_with [4]) /\
    finished w' = finished (world_with [4]) /\
    lockeds w' = lockeds (world_with [4]).
Proof.
  assert (H : -2 < 1) by lia.
  split; [exact H|].
  exact (@nonpositive_size_exits lifo (@rev Z) 7 9 (world_with [4]) (-2) H).
Defined.

(** C5.  For an array of length N >= 1 the results list read after the
    join barrier has at least one entry, the first of which is the one
    returned; and the closing block run on an empty results list raises
    [IndexError], releasing the lock, instead of returning a [Result]. *)
Theorem results_never_empty sch w arr a :
  holds w arr a -> (1 <= length a)%nat ->
  (exists r w' first more,
     tpqbogo sch arr w = (Returned r, w') /\
     lockeds w' = lockeds w ++ [mkLocked false (first :: more)] /\
     successful_thread r = first) /\
  (forall count ls lk sa fi se,
     run (with_ (length lk) (fun r =>
            rs <~ lift (items r) ;; lift (first_result count rs)))
         (mkWorld ls (lk ++ [mkLocked false []]) sa fi se) =
     (Raised IndexError, mkWorld ls (lk ++ [mkLocked false []]) sa fi se)).
Proof.
  intros Ha _. split.
  - destruct (tpqbogo_run sch arr w) as (order & win & more & HP & Eres & E).
    eexists _, _, win, more. split; [exact E|]. simpl. split; reflexivity.
  - intros count ls lk sa fi se.
    apply (closing_block lk ls sa fi se count []).
Qed.

Lemma results_never_empty_witness :
  holds (world_with [1; 1]) 1%nat [1; 1] /\
  (1 <= length [1; 1])%nat /\
  exists r w' first more,
    tpqbogo lifo 1%nat (world_with [1; 1]) = (Returned r, w') /\
    lockeds w' = lockeds (world_with [1; 1]) ++ [mkLocked false (first :: more)] /\
    successful_thread r = first.
Proof.
  assert (H1 : holds (world_with [1; 1]) 1%nat [1; 1]) by reflexivity.
  assert (H2 : (1 <= length [1; 1])%nat) by (simpl; lia).
  split; [exact H1|]. split; [exact H2|].
  exact (proj1 (@results_never_empty lifo _ _ _ H1 H2)).
Defined.

(** C6.  For the array of length N that [tpqbogo] is given, the generated
    permutations are the arrangements of the positions 0..N-1 read through
    the array; there are N! arrangements of the positions, none occurs
    twice and every one occurs.  The generation is a function of the array.
    The threads started get the ids 0, 1, ..., N!-1 in that order, thread k
    holding permutation k. *)
Theorem permutations_enumerated sch w arr a :
  holds w arr a ->
  permutations a =
    map (map (fun i => nth i a 0)) (permutations (seq 0 (length a))) /\
  length (permutations (seq 0 (length a))) = fact (length a) /\
  NoDup (permutations (seq 0 (length a))) /\
  (forall p, In p (permutations (seq 0 (length a))) <->
             Permutation (seq 0 (length a)) p) /\
  exists out w' ts,
    tpqbogo sch arr w = (out, w') /\
    started w' = started w ++ ts /\
    map t_idx ts = map Z.of_nat (seq 0 (fact (length a))) /\
    map (fun t => deref w' (t_arr t)) ts = permutations a.
Proof.
  intros Ha.
  assert (Hn : length (seq 0 (length a)) = length a) by apply length_seq.
  split; [|split; [|split; [|split]]].
  - unfold permutations at 2. rewrite Hn, <- permutations_of_length_map.
    unfold permutations. now rewrite map_nth_seq.
  - unfold permutations. rewrite Hn. apply permutations_of_length_count, Hn.
  - apply permutations_of_length_NoDup; [reflexivity | apply seq_NoDup].
  - intros p. split.
    + now apply permutations_of_length_sound.
    + now apply permutations_of_length_complete.
  - destruct (tpqbogo_run sch arr w) as (order & win & more & HP & Eres & E).
    rewrite (holds_deref Ha) in *.
    eexists _, _, _. split; [exact E|]. simpl. split; [reflexivity|]. split.
    + rewrite pass_ids. f_equal. f_equal.
      now apply permutations_of_length_count.
    + apply pass_private.
Qed.

Lemma permutations_enumerated_witness :
  holds (world_with [5; 5; 8]) 1%nat [5; 5; 8] /\
  permutations [5; 5; 8] =
    map (map (fun i => nth i [5; 5; 8] 0)) (permutations (seq 0 3)) /\
  length (permutations (seq 0 3)) = fact 3 /\
  NoDup (permutations (seq 0 3)).
Proof.
  assert (H1 : holds (world_with [5; 5; 8]) 1%nat [5; 5; 8]) by reflexivity.
  split; [exact H1|].
  destruct (@permutations_enumerated eager _ _ _ H1) as (Ha & Hb & Hc & _).
  split; [exact Ha|]. split; [exact Hb | exact Hc].
Defined.

(** C7.  Once every thread of the pass has finished, the results list holds
    exactly the outcomes of the threads whose permutation is sorted: as
    many entries as there are sorted permutations among the generated ones,
    no entry twice, none missing; for an array of distinct elements that is
    exactly one [ThreadResult]. *)
Theorem all_survivors_recorded sch w arr a :
  holds w arr a ->
  exists out w' ts fs res,
    tpqbogo sch arr w = (out, w') /\
    started w' = started w ++ ts /\
    finished w' = finished w ++ fs /\
    Permutation fs ts /\
    lockeds w' = lockeds w ++ [mkLocked false res] /\
    length res = length (filter is_sorted (permutations a)) /\
    NoDup res /\
    (forall x, In x res <->
               exists t, In t ts /\ x = mkThreadResult (t_idx t) (t_arr t) /\
                         is_sorted (deref w' (t_arr t)) = true) /\
    (NoDup a -> length res = 1%nat).
Proof.
  intros Ha.
  destruct (tpqbogo_run sch arr w) as (order & win & more & HP & Eres & E).
  rewrite (holds_deref Ha) in *.
  assert (Hlen : length (win :: more) = length (filter is_sorted (permutations a))).
  { rewrite <- Eres.
    rewrite (Permutation_length (Permutation_flat_map _ HP)).
    rewrite survivors_length. now rewrite pass_private. }
  assert (Hmem : forall x, In x (win :: more) <->
            exists t, In t (pass_threads (length (lists w))
                              (length (permutations a)) (length (lockeds w))) /\
                      x = mkThreadResult (t_idx t) (t_arr t) /\
                      is_sorted (nth (t_arr t)
                                   (lists w ++ permutations a ++ permutations a) [])
                      = true).
  { intros x. rewrite <- Eres, survivors_in.
    split; intros (t & Ht & Hx); exists t; (split; [|exact Hx]).
    - now apply (Permutation_in _ HP).
    - now apply (Permutation_in _ (Permutation_sym HP)). }
  eexists _, _, _, order, (win :: more). split; [exact E|]. simpl.
  repeat (split; [reflexivity || exact HP || exact Hlen|]).
  split; [|split].
  - rewrite <- Eres. apply NoDup_flat_map.
    + apply (Permutation_NoDup (Permutation_sym HP)), pass_threads_NoDup.
    + intros t _. unfold survivor.
      destruct (is_sorted _); repeat constructor. intros [].
    + intros t t' x Ht Ht' Hx Hx'.
      apply survivor_in in Hx, Hx'. destruct Hx as [-> _], Hx' as [Ex _].
      inversion Ex.
      eapply pass_threads_idx_inj; try eassumption;
        eapply Permutation_in; eassumption.
  - exact Hmem.
  - intros ND. etransitivity; [exact Hlen|]. now apply sorted_permutation_single.
Qed.

Lemma all_survivors_recorded_witness :
  holds (world_with [3; 1; 2]) 1%nat [3; 1; 2] /\
  NoDup [3; 1; 2] /\
  exists out w' res,
    tpqbogo eager 1%nat (world_with [3; 1; 2]) = (out, w') /\
    lockeds w' = lockeds (world_with [3; 1; 2]) ++ [mkLocked false res] /\
    length res = 1%nat.
Proof.
  assert (H1 : holds (world_with [3; 1; 2]) 1%nat [3; 1; 2]) by reflexivity.
  assert (H2 : NoDup [3; 1; 2]).
  { repeat constructor; simpl; intuition discriminate. }
  split; [exact H1|]. split; [exact H2|].
  destruct (@all_survivors_recorded eager _ _ _ H1)
    as (out & w' & ts & fs & res & E & _ & _ & _ & Hl & _ & _ & _ & Hone).
  exists out, w', res. split; [exact E|]. split; [exact Hl | exact (Hone H2)].
Defined.

(** C8.  The sortedness test is true exactly when every adjacent pair is in
    order, [seq[i] <= seq[i+1]]; so it is true of every sequence of length
    0 or 1. *)
Theorem is_sorted_spec (l : list Z) :
  (is_sorted l = true <->
   forall i, (S i < length l)%nat -> nth i l 0 <= nth (S i) l 0) /\
  ((length l <= 1)%nat -> is_sorted l = true).
Proof.
  split; [apply is_sorted_adjacent|].
  intros H. apply is_sorted_adjacent. intros i Hi. lia.
Qed.

Lemma is_sorted_spec_witness :
  (length [5] <= 1)%nat /\ is_sorted [5] = true.
Proof.
  assert (H : (length [5] <= 1)%nat) by (simpl; lia).
  split; [exact H|].
  exact (proj2 (is_sorted_spec [5]) H).
Defined.

(** C9.  A call of [tpqbogo] leaves the array it is given as it was, and
    the [original_array] of the [MainResult] that [main] returns is the
    array as shuffled, before the sort. *)
Theorem input_array_not_mutated sch shuffled t0 t1 w arr a array_size :
  holds w arr a -> 1 <= array_size ->
  (exists r w', tpqbogo sch arr w = (Returned r, w') /\ holds w' arr a) /\
  (exists m w',
     main sch shuffled t0 t1 array_size w = (Returned m, w') /\
     holds w' (original_array m) (shuffled (range 1 (array_size + 1)))).
Proof.
  intros Ha Hn. split.
  - destruct (tpqbogo_run sch arr w) as (order & win & more & HP & Eres & E).
    eexists _, _. split; [exact E|].
    eapply holds_grow; [exact Ha | reflexivity].
  - rewrite main_runs by assumption.
    destruct (tpqbogo_run sch (length (lists w)) (after_shuffle shuffled array_size w))
      as (order & win & more & HP & Eres & E).
    unfold bind. rewrite E. unfold ret.
    eexists _, _. split; [reflexivity|]. simpl.
    eapply holds_grow with (w := after_shuffle shuffled array_size w);
      [|reflexivity].
    unfold holds, after_shuffle. simpl.
    rewrite nth_error_app2, Nat.sub_diag by lia. reflexivity.
Qed.

Lemma input_array_not_mutated_witness :
  holds (world_with [2; 1]) 1%nat [2; 1] /\
  1 <= 3 /\
  (exists r w',
     tpqbogo lifo 1%nat (world_with [2; 1]) = (Returned r, w') /\
     holds w' 1%nat [2; 1]) /\
  (exists m w',
     main lifo (@rev Z) 7 9 3 (world_with [2; 1]) = (Returned m, w') /\
     holds w' (original_array m) (rev (range 1 (3 + 1)))).
Proof.
  assert (H1 : holds (world_with [2; 1]) 1%nat [2; 1]) by reflexivity.
  assert (H2 : 1 <= 3) by lia.
  split; [exact H1|]. split; [exact H2|].
  exact (@input_array_not_mutated lifo (@rev Z) 7 9 _ _ _ 3 H1 H2).
Defined.

(** C10.  Called on the empty list, [tpqbogo] raises nothing: it returns a
    [Result] with [num_of_permutations] 1 whose [successful_thread] has
    [thread_id] 0 and an empty [sorted_array]. *)
Theorem empty_list_returns sch w arr :
  holds w arr [] ->
  exists l w',
    tpqbogo sch arr w = (Returned (mkResult 1 (mkThreadResult 0 l)), w') /\
    deref w' l = [].
Proof.
  intros Ha.
  destruct (tpqbogo_run sch arr w) as (order & win & more & HP & Eres & E).
  rewrite (holds_deref Ha) in *. simpl in *.
  apply Permutation_sym, Permutation_length_1_inv in HP. subst order.
  unfold pass_threads in Eres. simpl in Eres. unfold survivor in Eres.
  simpl in Eres.
  rewrite app_nth2, Nat.add_0_r in Eres by lia.
  replace (length (lists w) + 1 - length (lists w))%nat with 1%nat in Eres by lia.
  simpl in Eres. inversion Eres; subst.
  eexists _, _. split; [exact E|]. unfold deref. simpl.
  rewrite app_nth2 by lia.
  replace (length (lists w) + 1 - length (lists w))%nat with 1%nat by lia.
  reflexivity.
Qed.

Lemma empty_list_returns_witness :
  holds (world_with []) 1%nat [] /\
  exists l w',
    tpqbogo eager 1%nat (world_with []) =
    (Returned (mkResult 1 (mkThreadResult 0 l)), w') /\
    deref w' l = [].
Proof.
  assert (H1 : holds (world_with []) 1%nat []) by reflexivity.
  split; [exact H1|].
  exact (@empty_list_returns eager _ _ H1).
Defined.

(** * Further properties *)

(** ** More about the library functions *)




(** The first tuple [itertools.permutations] emits is the pool as it is. *)
Lemma permutations_of_length_head (A : Type) (pool : list A) :
  exists more, permutations pool = pool :: more.
Proof.
  unfold permutations. induction pool as [|x xs [more IH]].
  - exists []. reflexivity.
  - simpl. rewrite IH. simpl. eexists. reflexivity.
Qed.

Lemma NoDup_nth_eq (A : Type) (l : list A) (d : A) i j :
  NoDup l -> (i < length l)%nat -> (j < length l)%nat ->
  nth i l d = nth j l d -> i = j.
Proof. intros ND Hi Hj E. now apply (proj1 (NoDup_nth l d) ND). Qed.

(** ** Who wins a pass *)

Lemma nth_private (ls ps : list (list Z)) k :
  nth (length ls + length ps + k) (ls ++ ps ++ ps) [] = nth k ps [].
Proof.
  rewrite app_assoc, app_nth2 by (rewrite length_app; lia).
  f_equal. rewrite length_app. lia.
Qed.

(** The pass in full: the winner is some thread [k], whose private list
    sits at a known address and holds permutation [k], which passes the
    test. *)
Lemma tpqbogo_winner sch arr w :
  let a := deref w arr in
  let ps := permutations a in
  let base := length (lists w) in
  exists k order more,
    (k < length ps)%nat /\
    is_sorted (nth k ps []) = true /\
    S (length more) = length (filter is_sorted ps) /\
    Permutation order (pass_threads base (length ps) (length (lockeds w))) /\
    tpqbogo sch arr w =
    (Returned (mkResult (factorial (length a))
                        (mkThreadResult (Z.of_nat k) (base + length ps + k)%nat)),
     mkWorld (lists w ++ ps ++ ps)
             (lockeds w ++
              [mkLocked false
                 (mkThreadResult (Z.of_nat k) (base + length ps + k)%nat :: more)])
             (started w ++ pass_threads base (length ps) (length (lockeds w)))
             (finished w ++ order) (stderr w)).
Proof.
  intros a ps base.
  destruct (tpqbogo_run sch arr w) as (order & win & more & HP & Eres & E).
  fold a in HP, Eres, E. fold ps in HP, Eres, E. fold base in HP, Eres, E.
  assert (Hin : In win (flat_map (survivor (lists w ++ ps ++ ps)) order))
    by (rewrite Eres; now left).
  apply survivors_in in Hin. destruct Hin as (t & Ht & Hw & Hs).
  apply (Permutation_in _ HP) in Ht. unfold pass_threads in Ht.
  apply in_map_iff in Ht. destruct Ht as (k & <- & Hk).
  apply in_seq in Hk. simpl in Hw, Hs.
  unfold base in Hs. rewrite nth_private in Hs. subst win.
  exists k, order, more. split; [lia|]. split; [exact Hs|].
  split; [|split; [exact HP | exact E]].
  change (S (length more))
    with (length (mkThreadResult (Z.of_nat k) (base + length ps + k)%nat :: more)).
  rewrite <- Eres.
  rewrite (Permutation_length (Permutation_flat_map (survivor _) HP)).
  rewrite survivors_length. unfold base. now rewrite pass_private.
Qed.

(** With distinct elements one position only of the enumeration passes the
    test. *)
Lemma sorted_position_unique a i j :
  NoDup a ->
  (i < length (permutations a))%nat -> (j < length (permutations a))%nat ->
  is_sorted (nth i (permutations a) []) = true ->
  is_sorted (nth j (permutations a) []) = true ->
  i = j.
Proof.
  intros ND Hi Hj Si Sj.
  assert (Hall : forall k, (k < length (permutations a))%nat ->
                           is_sorted (nth k (permutations a) []) = true ->
                           nth k (permutations a) [] = insertion_sort a).
  { intros k Hk Sk.
    apply sorted_permutation_unique; [exact Sk | apply insertion_sort_sorted |].
    assert (Hin : In (nth k (permutations a) []) (permutations a))
      by now apply nth_In.
    apply permutations_of_length_sound in Hin; [|reflexivity].
    rewrite <- Hin. apply insertion_sort_perm. }
  apply (@NoDup_nth_eq _ (permutations a) []); try assumption.
  - now apply permutations_of_length_NoDup.
  - now rewrite (Hall i), (Hall j).
Qed.





(** X3.  When the elements of the array are distinct the scheduler has no
    say in what a pass returns: one and the same [Result], winner's id
    included, comes back under every schedule, the store of lists ends up
    the same, and the results list ends up holding the winner's entry and
    nothing else. *)
Theorem distinct_elements_one_result w arr a :
  holds w arr a -> NoDup a ->
  exists r,
    forall sch, exists w',
      tpqbogo sch arr w = (Returned r, w') /\
      lists w' = lists w ++ permutations a ++ permutations a /\
      lockeds w' = lockeds w ++ [mkLocked false [successful_thread r]].
Proof.
  intros Ha ND. apply holds_deref in Ha.
  destruct (tpqbogo_winner fifo arr w)
    as (k0 & _ & _ & Hk0 & Hs0 & _ & _ & _).
  rewrite Ha in *.
  exists (mkResult (factorial (length a))
            (mkThreadResult (Z.of_nat k0)
               (length (lists w) + length (permutations a) + k0)%nat)).
  intros sch.
  destruct (tpqbogo_winner sch arr w)
    as (k & order & more & Hk & Hs & Hone & _ & E).
  rewrite Ha in *.
  assert (k = k0) by now apply (@sorted_position_unique a).
  subst k0.
  rewrite (sorted_permutation_single ND) in Hone.
  destruct more; [|discriminate].
  eexists. split; [exact E|]. simpl. split; reflexivity.
Qed.

Lemma distinct_elements_one_result_witness :
  holds (world_with [3; 1; 2]) 1%nat [3; 1; 2] /\
  NoDup [3; 1; 2] /\
  exists r,
    forall sch, exists w',
      tpqbogo sch 1%nat (world_with [3; 1; 2]) = (Returned r, w') /\
      lists w' = lists (world_with [3; 1; 2]) ++
                 permutations [3; 1; 2] ++ permutations [3; 1; 2] /\
      lockeds w' = lockeds (world_with [3; 1; 2]) ++
                   [mkLocked false [successful_thread r]].
Proof.
  assert (H1 : holds (world_with [3; 1; 2]) 1%nat [3; 1; 2]) by reflexivity.
  assert (H2 : NoDup [3; 1; 2]) by (repeat constructor; simpl; intuition lia).
  split; [exact H1|]. split; [exact H2|].
  exact (@distinct_elements_one_result _ _ _ H1 H2).
Defined.

(** X4.  On an array that is already in order and has distinct elements
    the winner is thread 0, the one that was handed the array as it came,
    under every schedule. *)
Theorem sorted_input_thread_zero sch w arr a :
  holds w arr a -> NoDup a -> is_sorted a = true ->
  exists r w',
    tpqbogo sch arr w = (Returned r, w') /\
    thread_id (successful_thread r) = 0 /\
    deref w' (sorted_array (successful_thread r)) = a.
Proof.
  intros Ha ND Hs. apply holds_deref in Ha.
  destruct (tpqbogo_winner sch arr w)
    as (k & order & more & Hk & Hsk & _ & _ & E).
  rewrite Ha in *.
  destruct (permutations_of_length_head a) as [rest Hhead].
  assert (k = O).
  { apply (@sorted_position_unique a); try assumption.
    - rewrite Hhead. simpl. lia.
    - rewrite Hhead. exact Hs. }
  subst k.
  eexists _, _. split; [exact E|]. split; [reflexivity|].
  unfold deref. simpl. rewrite nth_private, Hhead. reflexivity.
Qed.

Lemma sorted_input_thread_zero_witness :
  holds (world_with [1; 2; 3]) 1%nat [1; 2; 3] /\
  NoDup [1; 2; 3] /\
  is_sorted [1; 2; 3] = true /\
  exists r w',
    tpqbogo lifo 1%nat (world_with [1; 2; 3]) = (Returned r, w') /\
    thread_id (successful_thread r) = 0 /\
    deref w' (sorted_array (successful_thread r)) = [1; 2; 3].
Proof.
  assert (H1 : holds (world_with [1; 2; 3]) 1%nat [1; 2; 3]) by reflexivity.
  assert (H2 : NoDup [1; 2; 3]) by (repeat constructor; simpl; intuition lia).
  assert (H3 : is_sorted [1; 2; 3] = true) by reflexivity.
  split; [exact H1|]. split; [exact H2|]. split; [exact H3|].
  exact (@sorted_input_thread_zero lifo _ _ _ H1 H2 H3).
Defined.

(** ** Arrays with a repeated element *)

Lemma repeated_element_split (a : list Z) :
  ~ NoDup a -> exists x l1 l2 l3, a = l1 ++ x :: l2 ++ x :: l3.
Proof.
  induction a as [|y a IH]; intros H.
  - destruct H. constructor.
  - destruct (in_dec Z.eq_dec y a) as [Hin | Hnin].
    + apply in_split in Hin. destruct Hin as (l2 & l3 & ->).
      exists y, [], l2, l3. reflexivity.
    + destruct IH as (x & l1 & l2 & l3 & ->).
      * intros ND. apply H. now constructor.
      * exists x, (y :: l1), l2, l3. reflexivity.
Qed.

Lemma repeated_element_positions (a : list Z) :
  ~ NoDup a ->
  exists i j, (i < j)%nat /\ (j < length a)%nat /\ nth i a 0 = nth j a 0.
Proof.
  intros H. destruct (repeated_element_split H) as (x & l1 & l2 & l3 & ->).
  exists (length l1), (length l1 + S (length l2))%nat.
  split; [lia|]. split; [rewrite !length_app; simpl; rewrite length_app; simpl; lia|].
  rewrite app_nth2, Nat.sub_diag by lia. simpl.
  rewrite app_nth2 by lia.
  replace (length l1 + S (length l2) - length l1)%nat with (S (length l2)) by lia.
  simpl. rewrite app_nth2, Nat.sub_diag by lia. reflexivity.
Qed.

(** A function that is its own inverse and keeps the positions below [n]
    rearranges them. *)
Lemma involution_rearranges (sw : nat -> nat) n :
  (forall k, sw (sw k) = k) ->
  (forall k, (k < n)%nat -> (sw k < n)%nat) ->
  Permutation (map sw (seq 0 n)) (seq 0 n).
Proof.
  intros Hinv Hbound. apply NoDup_Permutation.
  - apply Finite.Injective_map_NoDup; [|apply seq_NoDup].
    intros x y E. rewrite <- (Hinv x), <- (Hinv y). now f_equal.
  - apply seq_NoDup.
  - intros k. rewrite in_map_iff. split.
    + intros (k' & <- & Hk'). apply in_seq in Hk'. apply in_seq.
      split; [lia|]. apply Hbound. lia.
    + intros Hk. apply in_seq in Hk. exists (sw k). split; [apply Hinv|].
      apply in_seq. split; [lia|]. apply Hbound. lia.
Qed.

Lemma two_members_length (A : Type) (l : list A) x y :
  In x l -> In y l -> x <> y -> (2 <= length l)%nat.
Proof.
  destruct l as [|u [|v l]]; simpl; intros Hx Hy Hne; [tauto | | lia].
  destruct Hx as [Hx|[]], Hy as [Hy|[]]. destruct Hne. congruence.
Qed.

(** The tuples of [permutations] are those of the positions, read in the
    pool. *)
Lemma permutations_by_position (a : list Z) :
  permutations a =
  map (map (fun i => nth i a 0)) (permutations (seq 0 (length a))).
Proof.
  unfold permutations at 2. rewrite length_seq.
  rewrite <- permutations_of_length_map, map_nth_seq. reflexivity.
Qed.

(** With a repeated element at least two tuples pass the test: exchanging
    the two positions of the repeated element in the tuple of positions
    gives another tuple of positions and the same values. *)
Lemma two_sorted_arrangements (a : list Z) :
  ~ NoDup a -> (2 <= length (filter is_sorted (permutations a)))%nat.
Proof.
  intros H.
  destruct (repeated_element_positions H) as (i & j & Hij & Hj & Heq).
  set (f := fun i => nth i a 0).
  set (sw := fun k => if (k =? i)%nat then j
                      else if (k =? j)%nat then i else k).
  assert (Hinv : forall k, sw (sw k) = k).
  { intros k. unfold sw.
    destruct (Nat.eqb_spec k i) as [->|Hki].
    - rewrite Nat.eqb_refl. destruct (Nat.eqb_spec j i); congruence.
    - destruct (Nat.eqb_spec k j) as [->|Hkj].
      + now rewrite Nat.eqb_refl.
      + destruct (Nat.eqb_spec k i); [contradiction|].
        destruct (Nat.eqb_spec k j); [contradiction | reflexivity]. }
  assert (Hbound : forall k, (k < length a)%nat -> (sw k < length a)%nat).
  { intros k Hk. unfold sw.
    destruct (k =? i)%nat; [lia|]. destruct (k =? j)%nat; lia. }
  assert (Hsame : forall k, f (sw k) = f k).
  { intros k. unfold sw, f.
    destruct (Nat.eqb_spec k i) as [->|_]; [now symmetry|].
    destruct (Nat.eqb_spec k j) as [->|_]; [assumption | reflexivity]. }
  rewrite permutations_by_position. fold f.
  rewrite filter_map_swap, length_map.
  set (P := permutations (seq 0 (length a))).
  assert (Hs : In (insertion_sort a) (map (map f) P)).
  { unfold P, f. rewrite <- permutations_by_position.
    apply permutations_of_length_complete; [reflexivity|].
    apply insertion_sort_perm. }
  apply in_map_iff in Hs. destruct Hs as (sigma & Hval & Hsigma).
  assert (Hperm : Permutation (seq 0 (length a)) sigma).
  { apply permutations_of_length_sound in Hsigma; [assumption | reflexivity]. }
  apply (@two_members_length _ _ sigma (map sw sigma)).
  - apply filter_In. split; [assumption|]. rewrite Hval.
    apply insertion_sort_sorted.
  - apply filter_In. split.
    + apply permutations_of_length_complete; [reflexivity|].
      rewrite <- (involution_rearranges sw Hinv Hbound) at 1.
      now apply Permutation_map.
    + rewrite map_map, (map_ext _ f Hsame), Hval. apply insertion_sort_sorted.
  - intros E.
    assert (Hi : In i sigma).
    { apply (Permutation_in _ Hperm). apply in_seq. lia. }
    assert (Hfix : sw i = i).
    { rewrite <- (map_id sigma) in E at 1.
      symmetry. exact (ext_in_map E i Hi). }
    unfold sw in Hfix. rewrite Nat.eqb_refl in Hfix. lia.
Qed.

(** X5.  The source remarks that the results list should in theory hold
    one item only.  After a pass it holds exactly one entry if and only if
    the elements of the array are pairwise distinct: as soon as one
    element is repeated, two threads or more have appended. *)
Theorem one_survivor_iff_distinct sch w arr a :
  holds w arr a ->
  exists r w' res,
    tpqbogo sch arr w = (Returned r, w') /\
    lockeds w' = lockeds w ++ [mkLocked false res] /\
    (length res = 1%nat <-> NoDup a) /\
    (~ NoDup a -> (2 <= length res)%nat).
Proof.
  intros Ha. apply holds_deref in Ha.
  destruct (tpqbogo_winner sch arr w)
    as (k & order & more & _ & _ & Hcount & _ & E).
  rewrite Ha in *.
  eexists _, _, _. split; [exact E|]. simpl. split; [reflexivity|].
  cbn [length]. rewrite Hcount. split; [split|].
  - intros H1. destruct (NoDup_dec Z.eq_dec a) as [ND | ND]; [exact ND|].
    apply two_sorted_arrangements in ND. lia.
  - apply sorted_permutation_single.
  - apply two_sorted_arrangements.
Qed.

Lemma one_survivor_iff_distinct_witness :
  holds (world_with [2; 1; 2]) 1%nat [2; 1; 2] /\
  exists r w' res,
    tpqbogo eager 1%nat (world_with [2; 1; 2]) = (Returned r, w') /\
    lockeds w' = lockeds (world_with [2; 1; 2]) ++ [mkLocked false res] /\
    (length res = 1%nat <-> NoDup [2; 1; 2]) /\
    (~ NoDup [2; 1; 2] -> (2 <= length res)%nat).
Proof.
  assert (H : holds (world_with [2; 1; 2]) 1%nat [2; 1; 2]) by reflexivity.
  split; [exact H|].
  exact (@one_survivor_iff_distinct eager _ _ _ H).
Defined.

(** ** The [Locked] class and the [with] statement *)

Lemma run_tbind (A B : Type) (k : A -> Thr B) : forall (t : Thr A) w,
  run (tbind t k) w = bind (run t) (fun a => run (k a)) w.
Proof.
  fix IH 1. intros [o | step] w.
  - destruct o; reflexivity.
  - simpl. unfold bind. simpl. destruct (step w) as [[t' w']|].
    + rewrite IH. reflexivity.
    + reflexivity.
Qed.

(** [try: t finally: cleanup] when [t] comes to an end: the cleanup runs
    in the world [t] left, and the outcome of [t] is that of the whole
    unless the cleanup itself fails. *)
Lemma run_finally (A : Type) (cleanup : Thr unit) : forall (t : Thr A) w o w',
  run t w = (o, w') -> o <> Blocked ->
  run (finally t cleanup) w = bind (run cleanup) (fun _ w'' => (o, w'')) w'.
Proof.
  fix IH 1. intros [o0 | step] w o w' E Ho.
  - simpl in E. inversion E; subst. simpl. apply run_tbind.
  - simpl in *. destruct (step w) as [[t' w1]|].
    + now apply IH.
    + inversion E; subst. now destruct Ho.
Qed.

Lemma nth_upd (A : Type) (f : A -> A) (d : A) : forall (l : list A) i,
  (i < length l)%nat -> nth i (upd i f l) d = f (nth i l d).
Proof.
  induction l as [|x l IH]; intros [|i] H; simpl in *; try lia; [reflexivity|].
  apply IH. lia.
Qed.



Lemma nth_error_default (A : Type) (l : list A) i x d :
  nth_error l i = Some x -> nth i l d = x.
Proof. apply nth_error_nth. Qed.

(** X6.  [with l as r: body] is safe against every way out of the body.
    When the lock is free the body runs with the lock held, and whether it
    returns, raises or leaves through [exit], [__exit__] has run by the
    time the statement is left: the outcome is the body's and the lock is
    free again. *)
Theorem with_releases_on_every_exit (A : Type) (l : lref) (body : lref -> Thr A)
        w o out w2 :
  nth_error (lockeds w) l = Some o -> lock o = false ->
  run (body l)
      (set_lockeds (upd l (fun o => mkLocked true (item o)) (lockeds w)) w) =
    (out, w2) ->
  out <> Blocked ->
  (l < length (lockeds w2))%nat ->
  exists w',
    run (with_ l body) w = (out, w') /\
    lock (nth l (lockeds w') (mkLocked false [])) = false /\
    item (nth l (lockeds w') (mkLocked false [])) =
      item (nth l (lockeds w2) (mkLocked false [])) /\
    lists w' = lists w2 /\ stderr w' = stderr w2.
Proof.
  intros Hl Hfree Hbody Hout Hvalid.
  exists (set_lockeds (upd l (fun o => mkLocked false (item o)) (lockeds w2)) w2).
  split.
  - unfold with_. rewrite run_tbind. unfold bind.
    replace (run (lift (Locked_enter l)) w)
      with (Returned l,
            set_lockeds (upd l (fun o => mkLocked true (item o)) (lockeds w)) w).
    + rewrite (@run_finally _ (lift (Locked_exit l)) _ _ _ _ Hbody Hout). reflexivity.
    + simpl. unfold Locked_enter.
      rewrite (nth_error_default _ _ _ Hl), Hfree. reflexivity.
  - simpl. rewrite nth_upd by assumption. simpl. repeat split; reflexivity.
Qed.

Lemma with_releases_on_every_exit_witness :
  nth_error (lockeds (lock_world [] false [])) 0 = Some (mkLocked false []) /\
  lock (mkLocked false []) = false /\
  run ((fun r => rs <~ lift (items r) ;; lift (first_result 1 rs)) 0%nat)
      (set_lockeds (upd 0%nat (fun o => mkLocked true (item o))
                        (lockeds (lock_world [] false [])))
                   (lock_world [] false [])) =
    (Raised IndexError, lock_world [] true []) /\
  Raised IndexError <> @Blocked Result /\
  (0 < length (lockeds (lock_world [] true [])))%nat /\
  exists w',
    run (with_ 0%nat (fun r => rs <~ lift (items r) ;; lift (first_result 1 rs)))
        (lock_world [] false []) =
      (Raised IndexError, w') /\
    lock (nth 0 (lockeds w') (mkLocked false [])) = false /\
    item (nth 0 (lockeds w') (mkLocked false [])) =
      item (nth 0 (lockeds (lock_world [] true [])) (mkLocked false [])) /\
    lists w' = lists (lock_world [] true []) /\
    stderr w' = stderr (lock_world [] true []).
Proof.
  assert (H1 : nth_error (lockeds (lock_world [] false [])) 0 =
               Some (mkLocked false [])) by reflexivity.
  assert (H2 : lock (mkLocked false []) = false) by reflexivity.
  assert (H3 : run ((fun r => rs <~ lift (items r) ;; lift (first_result 1 rs)) 0%nat)
                 (set_lockeds (upd 0%nat (fun o => mkLocked true (item o))
                                   (lockeds (lock_world [] false [])))
                              (lock_world [] false [])) =
               (Raised IndexError, lock_world [] true [])) by reflexivity.
  assert (H4 : Raised IndexError <> @Blocked Result) by discriminate.
  assert (H5 : (0 < length (lockeds (lock_world [] true [])))%nat)
    by (simpl; lia).
  split; [exact H1|]. split; [exact H2|]. split; [exact H3|].
  split; [exact H4|]. split; [exact H5|].
  exact (@with_releases_on_every_exit Result 0%nat
           (fun r => rs <~ lift (items r) ;; lift (first_result 1 rs))
           _ _ _ _ H1 H2 H3 H4 H5).
Defined.

(** X7.  The lock of a [Locked] object is not re-entrant: code that enters
    [with l] while already inside [with l] never gets out, whatever the
    inner body is. *)
Theorem with_inside_with_waits_for_ever (A : Type) (l : lref)
        (body : lref -> Thr A) w o :
  nth_error (lockeds w) l = Some o ->
  fst (run (with_ l (fun _ => with_ l body)) w) = Blocked.
Proof.
  intros Hl.
  assert (Hlt : (l < length (lockeds w))%nat)
    by (apply nth_error_Some; congruence).
  unfold with_ at 1. rewrite run_tbind. unfold bind. simpl run at 1.
  unfold Locked_enter at 1. rewrite (nth_error_default _ _ _ Hl).
  destruct (lock o); [reflexivity|].
  simpl. unfold Locked_enter. simpl. rewrite nth_upd by assumption.
  reflexivity.
Qed.

Lemma with_inside_with_waits_for_ever_witness :
  nth_error (lockeds (lock_world [] false [])) 0 = Some (mkLocked false []) /\
  fst (run (with_ 0%nat (fun _ => with_ 0%nat (fun r => lift (items r))))
           (lock_world [] false [])) = Blocked.
Proof.
  assert (H : nth_error (lockeds (lock_world [] false [])) 0 =
              Some (mkLocked false [])) by reflexivity.
  split; [exact H|].
  exact (@with_inside_with_waits_for_ever _ 0%nat (fun r => lift (items r))
           _ _ H).
Defined.



(** ** While the threads run *)

(** X9.  The lock does its work.  Take the pass at any moment after the
    threads were started: under every schedule of the spawning loop and
    after any further thread steps, every thread that is still live stands
    at the start of [check_sort], before [__enter__], before [append] or
    before [__exit__]; at most one of them is between [__enter__] and
    [__exit__], the lock is held exactly when one is, and the results list
    holds the entries of the sorted threads that are at their end, in the
    order in which they ended, followed by the entry of the thread inside
    the block if it has appended: no entry is lost and none is doubled. *)
Theorem at_most_one_thread_in_the_block sch picks arr w :
  exists alive F w',
    (a <- read_list arr ;;
     arr_permutations <- new_lists (permutations a) ;;
     results <- Locked_init [] ;;
     live <- spawn_all sch (enumerate arr_permutations) results [] ;;
     run_some picks live) w = (Returned (map conc alive), w') /\
    (length (filter holder alive) <= 1)%nat /\
    lock (nth (length (lockeds w)) (lockeds w') (mkLocked false [])) =
      holding alive /\
    finished w' = finished w ++ F /\
    item (nth (length (lockeds w)) (lockeds w') (mkLocked false [])) =
      flat_map (survivor (lists w')) F ++ flat_map (appended (lists w')) alive /\
    Permutation (F ++ map fst alive)
      (pass_threads (length (lists w)) (length (permutations (deref w arr)))
                    (length (lockeds w))).
Proof.
  set (a := deref w arr). set (ps := permutations a).
  set (ts := pass_threads (length (lists w)) (length ps) (length (lockeds w))).
  set (st' := lists w ++ ps ++ ps).
  destruct w as [ls lk sa fi se]. simpl in *.
  set (work := enumerate (seq (length ls) (length ps))).
  assert (Hcopies : copies (ls ++ ps) work = ps).
  { unfold copies, work, enumerate.
    rewrite <- (map_map snd (fun i => nth i (ls ++ ps) [])).
    rewrite enumerate_from_snd. apply read_fresh. }
  assert (Hts : threads_of (length (ls ++ ps)) work (length lk) = ts).
  { unfold work, enumerate. rewrite threads_of_enumerate, length_seq, length_app.
    reflexivity. }
  assert (Hst : st' = (ls ++ ps) ++ copies (ls ++ ps) work).
  { rewrite Hcopies. unfold st'. now rewrite app_assoc. }
  destruct (@spawn_shape lk st' fi se sch work [] (ls ++ ps) sa [])
    as (alive1 & F1 & E1 & Hwf1 & HP1).
  { split; [constructor|]. split; [simpl; lia|]. exists (copies (ls ++ ps) work).
    exact Hst. }
  { exact Hst. }
  { unfold work, enumerate. apply Forall_forall. intros ip Hin.
    apply (in_map snd) in Hin. rewrite enumerate_from_snd in Hin.
    apply in_seq in Hin. rewrite length_app. lia. }
  destruct (@run_some_shape lk st' fi se st'
              (sa ++ threads_of (length (ls ++ ps)) work (length lk))
              picks alive1 F1 Hwf1)
    as (alive2 & F2 & E2 & Hwf2 & HP2).
  rewrite Hts in *. simpl in HP1.
  exists alive2, F2. eexists. split.
  - unfold bind at 1. unfold read_list at 1. cbv iota beta.
    change (nth arr (lists _) []) with a. fold ps.
    unfold bind at 1. rewrite new_lists_spec. cbv iota beta.
    unfold bind at 1. unfold Locked_init at 1. cbv iota beta.
    change (length (lockeds (set_lists _ _))) with (length lk).
    change (length (lists _)) with (length ls).
    unfold bind at 1.
    change (enumerate (seq (length ls) (length ps))) with work.
    change (set_lockeds _ (set_lists _ _))
      with (mkWorld (ls ++ ps) (lk ++ [mkLocked false []]) sa fi se).
    rewrite shape_quiet in E1. simpl in E1. rewrite app_nil_r in E1.
    rewrite E1. cbv iota beta. exact E2.
  - unfold shape. simpl. rewrite nth_new. simpl.
    split; [apply Hwf2|]. split; [reflexivity|]. split; [reflexivity|].
    split; [reflexivity|]. now rewrite HP2, HP1.
Qed.

(** ** The command line *)

(** [main] on a size from 1 up returns, whatever the shuffle does. *)
Lemma main_returns sch shuffled t0 t1 N w :
  1 <= N ->
  exists r w',
    main sch shuffled t0 t1 N w =
      (Returned (mkMainResult (length (lists w)) (t1 - t0) r), w') /\
    stderr w' = stderr w.
Proof.
  intros HN. rewrite main_runs by assumption.
  destruct (tpqbogo_run sch (length (lists w)) (after_shuffle shuffled N w))
    as (order & win & more & _ & _ & E).
  unfold bind. rewrite E. unfold ret. eexists _, _. split; [reflexivity|].
  simpl. unfold after_shuffle. now destruct w.
Qed.

Lemma dbg_quiet message p : dbg message p = (Returned tt, p).
Proof. reflexivity. Qed.







(** The loop of [main_speedtest] comes to its end whatever the shuffle
    does. *)
Lemma speedtest_loop_returns env : forall sizes p,
  Forall (fun i => 1 <= i) sizes ->
  exists p', speedtest_loop env sizes p = (Returned tt, p').
Proof.
  induction sizes as [|i rest IH]; intros p H.
  - exists p. reflexivity.
  - apply Forall_cons_iff in H. destruct H as [Hi Hrest].
    destruct (@main_returns (call_sch (env i)) (call_shuffled (env i))
                (call_start (env i)) (call_end (env i)) i (mem p) Hi)
      as (r & w' & E & _).
    cbn [speedtest_loop]. unfold pbind at 1. rewrite dbg_quiet.
    unfold pbind at 1. unfold main_in, inM. rewrite E.
    unfold pbind at 1. unfold print at 1. cbv iota beta.
    apply IH, Hrest.
Qed.

(** X13.  The status the script ends with, debug output off.  It is 1
    exactly when the size is below 1 and [-S] was not given; then nothing
    was printed on stdout and stderr got the message about the size.  In
    every other case it is 0: with [-S] whatever the size and whether or
    not [-N] was given too, with [-N] through [exit(0)], and in the
    display mode because the script runs off its end. *)
Theorem script_exit_status env args p :
  debug args = false ->
  exit_status (fst (script env args p)) =
    Some (if negb (speedtest args) && (size args <? 1) then 1 else 0) /\
  (speedtest args = false -> size args < 1 ->
   stdout (snd (script env args p)) = stdout p /\
   stderr (mem (snd (script env args p))) = stderr (mem p) ++ [size_message]).
Proof.
  intros _. unfold script.
  destruct (speedtest args) eqn:HS.
  - destruct (@speedtest_loop_returns env (range 1 (size args + 1))
                (mkProcess (mem p) (stdout p ++ [speedtest_header])))
      as (p' & E).
    { apply Forall_forall. intros i Hi. unfold range in Hi.
      apply in_map_iff in Hi. destruct Hi as (k & <- & _). lia. }
    unfold pbind at 1. unfold main_speedtest, pbind. unfold print at 1.
    rewrite E. simpl. split; [reflexivity | discriminate].
  - simpl negb. cbn [andb].
    destruct (size args <? 1) eqn:HN.
    + apply Z.ltb_lt in HN.
      assert (Hmain : forall e, main_in e (size args) p =
                (Exited 1,
                 mkProcess (set_stderr (stderr (mem p) ++ [size_message])
                              (after_shuffle (call_shuffled e) (size args) (mem p)))
                           (stdout p))).
      { intros e. unfold main_in, inM. now rewrite main_rejects. }
      destruct (nanoseconds args).
      * unfold pbind, main_nanoseconds, pbind. rewrite Hmain. simpl.
        split; [reflexivity|]. intros _ _. split; [reflexivity|].
        now destruct (mem p).
      * unfold main_display, pbind. rewrite Hmain. simpl.
        split; [reflexivity|]. intros _ _. split; [reflexivity|].
        now destruct (mem p).
    + apply Z.ltb_ge in HN. split; [|intros _ Hlt; lia].
      destruct (@main_returns (call_sch (env (size args)))
                  (call_shuffled (env (size args)))
                  (call_start (env (size args))) (call_end (env (size args)))
                  (size args) (mem p) HN) as (r & w' & E & _).
      destruct (nanoseconds args).
      * unfold pbind, main_nanoseconds, pbind, main_in, inM. rewrite E.
        reflexivity.
      * unfold main_display, pbind, main_in, inM. rewrite E. reflexivity.
Qed.

Lemma script_exit_status_witness :
  debug display_of_nothing = false /\
  exit_status (fst (script (reversing fifo) display_of_nothing fresh_process)) =
    Some (if negb (speedtest display_of_nothing) &&
             (size display_of_nothing <? 1) then 1 else 0) /\
  (speedtest display_of_nothing = false -> size display_of_nothing < 1 ->
   stdout (snd (script (reversing fifo) display_of_nothing fresh_process)) =
     stdout fresh_process /\
   stderr (mem (snd (script (reversing fifo) display_of_nothing fresh_process))) =
     stderr (mem fresh_process) ++ [size_message]).
Proof.
  assert (H : debug display_of_nothing = false) by reflexivity.
  split; [exact H|].
  exact (@script_exit_status (reversing fifo) display_of_nothing fresh_process H).
Defined.
